(** * Mirror_Profile: the Markdown to Google Docs request compiler

    Shallow embedding of [markdown_to_docs_requests]
    (src/google_docs_integration.py, lines 17-190) and the properties the
    specification states about the batch it returns.

    Conventions of the embedding.
    - Python [int] is [Z]; Python [str] is [string], one character per code
      point, so [len] is [String.length] (ASCII documents).
    - A [dict] request is a constructor of [request] carrying the values
      stored under its keys.
    - [list.append] is [++ [x]]: lists stay in emission order.
    - A raised exception ([IndexError], [ValueError]) is [None].
    - [md.parse] belongs to the markdown-it library, not to this repository:
      it is a section variable, and the token streams of concrete documents
      are stated as hypotheses on it. *)

From Stdlib Require Import ZArith List String Ascii Bool Lia.
Import ListNotations.

Open Scope string_scope.
Open Scope list_scope.
Open Scope Z_scope.

(** ** Data model *)

(** A markdown-it token: the four attributes the compiler reads. *)
#[warnings="-register-all"]
Inductive Token : Type := mkToken {
  type : string;
  tag : string;
  content : string;
  children : option (list Token)
}.

(** The [textStyle] dict: a field is [true] when its key was set to [True]. *)
Record textStyle : Type := mkTextStyle {
  bold : bool;
  italic : bool
}.

(** The [paragraphStyle] dict: either [{'namedStyleType': s}] or
    [{'spaceBelow': {'magnitude': m, 'unit': u}}] (the literal 10.0 is the
    integer 10). *)
Inductive paragraphStyle : Type :=
| namedStyleType (name : string)
| spaceBelow (magnitude : Z) (unit_ : string).

(** One entry of the batchUpdate request list. *)
Inductive request : Type :=
| insertText (index : Z) (text : string)
| updateTextStyle (startIndex endIndex : Z) (style : textStyle) (fields : string)
| updateParagraphStyle (startIndex endIndex : Z) (style : paragraphStyle)
                       (fields : string).

(** The local variables of [markdown_to_docs_requests]. *)
Record State : Type := mkState {
  requests : list request;
  formatting_requests : list request;
  current_index : Z;
  current_heading_level : option Z;
  is_bold : bool;
  is_italic : bool
}.

(** The one-character strings the compiler inserts. *)
Definition LF : string := String "010"%char EmptyString.
Definition SPACE : string := String " "%char EmptyString.

(** [len(s)] *)
Definition len (s : string) : Z := Z.of_nat (String.length s).

(** [int(c)] for a one-character string: a decimal digit, else [ValueError]. *)
Definition int_of_char (c : ascii) : option Z :=
  let n := Z.of_nat (nat_of_ascii c) in
  if (48 <=? n) && (n <=? 57) then Some (n - 48) else None.

(** [int(token.tag[1])]: [IndexError] on a tag shorter than two characters. *)
Definition heading_level (t : string) : option Z :=
  match String.get 1 t with
  | Some c => int_of_char c
  | None => None
  end.

(** [heading_map], lines 40-44. *)
Definition heading_map : list (Z * string) :=
  [(1, "HEADING_1"); (2, "HEADING_2"); (3, "HEADING_3")].

(** [d.get(k, default)] *)
Fixpoint dict_get (d : list (Z * string)) (k : Z) (default : string) : string :=
  match d with
  | [] => default
  | (k', v) :: d' => if k' =? k then v else dict_get d' k default
  end.

(** [','.join(fields)] for the [fields] list built at lines 116-123. *)
Definition style_fields (b i : bool) : string :=
  String.concat "," ((if b then ["bold"] else []) ++ (if i then ["italic"] else [])).

(** ** The inner loop over [token.children], lines 69-137 *)

Definition child_step (child : Token) (st : State) : State :=
  if (type child =? "strong_open")%string then
    mkState (requests st) (formatting_requests st) (current_index st)
            (current_heading_level st) true (is_italic st)
  else if (type child =? "strong_close")%string then
    mkState (requests st) (formatting_requests st) (current_index st)
            (current_heading_level st) false (is_italic st)
  else if (type child =? "em_open")%string then
    mkState (requests st) (formatting_requests st) (current_index st)
            (current_heading_level st) (is_bold st) true
  else if (type child =? "em_close")%string then
    mkState (requests st) (formatting_requests st) (current_index st)
            (current_heading_level st) (is_bold st) false
  else if (type child =? "softbreak")%string then
    mkState (requests st ++ [insertText (current_index st) SPACE])
            (formatting_requests st) (current_index st + 1)
            (current_heading_level st) (is_bold st) (is_italic st)
  else if (type child =? "text")%string && negb (content child =? "")%string then
    let text_to_insert := content child in
    let text_length := len text_to_insert in
    let text_start := current_index st in
    let text_end := current_index st + text_length in
    mkState (requests st ++ [insertText (current_index st) text_to_insert])
            (if is_bold st || is_italic st then
               formatting_requests st ++
                 [updateTextStyle text_start text_end
                    (mkTextStyle (is_bold st) (is_italic st))
                    (style_fields (is_bold st) (is_italic st))]
             else formatting_requests st)
            text_end
            (current_heading_level st) (is_bold st) (is_italic st)
  else st.

(** [for child in token.children: ...] *)
Definition children_loop (cs : list Token) (st : State) : State :=
  fold_left (fun s child => child_step child s) cs st.

(** ** The body of the outer loop, lines 50-186 *)

(** [i > 0 and tokens[i-1].type == 'paragraph_open'], line 171. *)
Definition after_paragraph_open (tokens : list Token) (i : nat) : option bool :=
  match i with
  | O => Some false
  | S j => match nth_error tokens j with
           | Some prev => Some (type prev =? "paragraph_open")%string
           | None => None
           end
  end.

(** Lines 64-65: both emphasis flags are cleared when an inline token begins. *)
Definition reset_flags (st : State) : State :=
  mkState (requests st) (formatting_requests st) (current_index st)
          (current_heading_level st) false false.

(** Lines 68-69: [if token.children: for child in token.children: ...] *)
Definition run_children (token : Token) (st : State) : State :=
  match children token with
  | Some (c :: cs) => children_loop (c :: cs) st
  | _ => st
  end.

(** Lines 139-186: the trailing newline and the paragraph-level style. *)
Definition inline_finish (tokens : list Token) (i : nat)
    (paragraph_start_index : Z) (st1 : State) : option State :=
  let newline_index := current_index st1 in
  let st2 := mkState (requests st1 ++ [insertText (current_index st1) LF])
                     (formatting_requests st1) (current_index st1 + 1)
                     (current_heading_level st1) (is_bold st1) (is_italic st1) in
  let paragraph_end_index := newline_index in
  if paragraph_end_index >? paragraph_start_index then
    match current_heading_level st2 with
    | Some level =>
        Some (mkState (requests st2)
                (formatting_requests st2 ++
                   [updateParagraphStyle paragraph_start_index paragraph_end_index
                      (namedStyleType (dict_get heading_map level "NORMAL_TEXT"))
                      "namedStyleType"])
                (current_index st2) (current_heading_level st2)
                (is_bold st2) (is_italic st2))
    | None =>
        match after_paragraph_open tokens i with
        | Some true =>
            Some (mkState (requests st2)
                    (formatting_requests st2 ++
                       [updateParagraphStyle paragraph_start_index
                          paragraph_end_index (spaceBelow 10 "PT") "spaceBelow"])
                    (current_index st2) (current_heading_level st2)
                    (is_bold st2) (is_italic st2))
        | Some false => Some st2
        | None => None
        end
    end
  else Some st2.

(** The [inline] branch, lines 61-186. *)
Definition inline_step (tokens : list Token) (i : nat) (token : Token)
    (st : State) : option State :=
  let paragraph_start_index := current_index st in
  inline_finish tokens i paragraph_start_index (run_children token (reset_flags st)).

Definition token_step (tokens : list Token) (i : nat) (token : Token)
    (st : State) : option State :=
  if (type token =? "heading_open")%string then
    match heading_level (tag token) with
    | Some level =>
        Some (mkState (requests st) (formatting_requests st) (current_index st)
                (Some level) (is_bold st) (is_italic st))
    | None => None
    end
  else if (type token =? "heading_close")%string then
    Some (mkState (requests st) (formatting_requests st) (current_index st)
            None (is_bold st) (is_italic st))
  else if (type token =? "inline")%string then
    inline_step tokens i token st
  else Some st.

(** [for i, token in enumerate(tokens): ...], resumed at position [i] with
    [rest] still to visit. *)
Fixpoint token_loop (tokens : list Token) (i : nat) (rest : list Token)
    (st : State) : option State :=
  match rest with
  | [] => Some st
  | token :: rest' =>
      match token_step tokens i token st with
      | Some st' => token_loop tokens (S i) rest' st'
      | None => None
      end
  end.

(** Lines 25-37: the two empty lists, the cursor and the separator emitted
    when appending to existing content. *)
Definition prelude (start_index : Z) : State :=
  let st := mkState [] [] start_index None false false in
  if start_index >? 1 then
    mkState (requests st ++ [insertText (current_index st) (LF ++ LF)])
            (formatting_requests st) (current_index st + 2)
            (current_heading_level st) (is_bold st) (is_italic st)
  else st.

(** The state when the outer loop has ended (line 188). *)
Definition final_state (tokens : list Token) (start_index : Z) : option State :=
  token_loop tokens 0 tokens (prelude start_index).

(** [return requests + formatting_requests], line 190. *)
Definition batch_of (st : State) : list request :=
  requests st ++ formatting_requests st.

Section Compiler.

(** [md.parse], the markdown-it parser. *)
Variable md_parse : string -> list Token.

Definition markdown_to_docs_requests (markdown_content : string)
    (start_index : Z) : option (list request) :=
  let tokens := md_parse markdown_content in
  option_map batch_of (final_state tokens start_index).

End Compiler.

(** ** Token streams of the documents named by the specification *)

Definition heading_open (t : string) : Token := mkToken "heading_open" t "" None.
Definition heading_close (t : string) : Token := mkToken "heading_close" t "" None.
Definition paragraph_open : Token := mkToken "paragraph_open" "p" "" None.
Definition paragraph_close : Token := mkToken "paragraph_close" "p" "" None.
Definition inline (cs : list Token) : Token := mkToken "inline" "" "" (Some cs).
Definition text_tok (s : string) : Token := mkToken "text" "" s None.
Definition strong_open : Token := mkToken "strong_open" "strong" "" None.
Definition strong_close : Token := mkToken "strong_close" "strong" "" None.
Definition em_open : Token := mkToken "em_open" "em" "" None.
Definition em_close : Token := mkToken "em_close" "em" "" None.
Definition softbreak : Token := mkToken "softbreak" "br" "" None.


(** ** Vocabulary of the specification *)

(** A TextInsertOp. *)
Definition is_insert (r : request) : bool :=
  match r with insertText _ _ => true | _ => false end.

(** A StyleRange or a ParagraphRange. *)
Definition is_formatting (r : request) : bool :=
  match r with insertText _ _ => false | _ => true end.

(** A StyleRange. *)
Definition is_text_style (r : request) : bool :=
  match r with updateTextStyle _ _ _ _ => true | _ => false end.


(** The strings a batch inserts, in batch order. *)
Fixpoint inserted_texts (batch : list request) : list string :=
  match batch with
  | [] => []
  | insertText _ t :: batch' => t :: inserted_texts batch'
  | _ :: batch' => inserted_texts batch'
  end.

(** The number of characters a batch inserts. *)
Definition inserted_length (batch : list request) : Z :=
  fold_right (fun t n => len t + n) 0 (inserted_texts batch).

(** A token stream whose every [heading_open] carries a tag of the form
    [h<digit>], as markdown-it produces them ([h1] to [h6]). *)
Definition heading_tag_ok (t : Token) : bool :=
  if (type t =? "heading_open")%string then
    match heading_level (tag t) with Some _ => true | None => false end
  else true.

Definition heading_tags_ok (tokens : list Token) : bool :=
  forallb heading_tag_ok tokens.

(** The separator of an appending call, and the cursor the markup starts at. *)
Definition separator (start_index : Z) : list request :=
  if start_index >? 1 then [insertText start_index (LF ++ LF)] else [].

Definition body_start (start_index : Z) : Z :=
  if start_index >? 1 then start_index + 2 else start_index.

(** A request moved [d] characters to the right. *)
Definition shift_request (d : Z) (r : request) : request :=
  match r with
  | insertText i t => insertText (i + d) t
  | updateTextStyle s e ts f => updateTextStyle (s + d) (e + d) ts f
  | updateParagraphStyle s e ps f => updateParagraphStyle (s + d) (e + d) ps f
  end.

Definition shift_state (d : Z) (st : State) : State :=
  mkState (map (shift_request d) (requests st))
          (map (shift_request d) (formatting_requests st))
          (current_index st + d)
          (current_heading_level st) (is_bold st) (is_italic st).

(** A state whose request list has [pre] emitted before everything else. *)
Definition prepend (pre : list request) (st : State) : State :=
  mkState (pre ++ requests st) (formatting_requests st) (current_index st)
          (current_heading_level st) (is_bold st) (is_italic st).

(** The strings the markup itself contributes: per inline token, a space for
    each soft break, the content of each non-empty text child, then the
    paragraph's newline. *)
Definition child_texts (child : Token) : list string :=
  if (type child =? "softbreak")%string then [SPACE]
  else if (type child =? "text")%string && negb (content child =? "")%string
       then [content child]
       else [].

Definition children_of (token : Token) : list Token :=
  match children token with
  | Some cs => cs
  | None => []
  end.

Definition token_texts (token : Token) : list string :=
  if (type token =? "inline")%string
  then flat_map child_texts (children_of token) ++ [LF]
  else [].

Definition markup_texts (tokens : list Token) : list string :=
  flat_map token_texts tokens.

(** markdown-it's token stream for plain text: for each paragraph
    [paragraph_open], an [inline] token with one [text] child holding the
    paragraph, [paragraph_close]. *)
Definition plain_tokens (paragraphs : list string) : list Token :=
  flat_map (fun p => [paragraph_open; inline [text_tok p]; paragraph_close])
           paragraphs.






(** The documents the specification names, and markdown-it's token streams
    for them. *)
Definition title_markdown : string := "# Title".
Definition title_tokens : list Token :=
  [heading_open "h1"; inline [text_tok "Title"]; heading_close "h1"].

Definition a_b_markdown : string := "A" ++ LF ++ LF ++ "B".
Definition a_b_tokens : list Token := plain_tokens ["A"; "B"].

Definition bold_bold_markdown : string := "**bold** **bold**".
Definition bold_bold_tokens : list Token :=
  [paragraph_open;
   inline [text_tok ""; strong_open; text_tok "bold"; strong_close;
           text_tok " "; strong_open; text_tok "bold"; strong_close;
           text_tok ""];
   paragraph_close].

(** A bold run of two words on two lines: a soft break while bold is set. *)
Definition bold_break_markdown : string := "**one" ++ LF ++ "two**".
Definition bold_break_tokens : list Token :=
  [paragraph_open;
   inline [text_tok ""; strong_open; text_tok "one"; softbreak; text_tok "two";
           strong_close; text_tok ""];
   paragraph_close].

(** A parser that answers with markdown-it's stream on the documents above. *)
Definition reference_parse (markdown_content : string) : list Token :=
  if (markdown_content =? title_markdown)%string then title_tokens
  else if (markdown_content =? a_b_markdown)%string then a_b_tokens
  else if (markdown_content =? bold_bold_markdown)%string then bold_bold_tokens
  else if (markdown_content =? bold_break_markdown)%string then bold_break_tokens
  else [].

(** ** Invariants of the two lists and the cursor *)

(** Insertions on one side, style and structure operations on the other. *)
Definition ordered_inv (rs fs : list request) (c : Z) : Prop :=
  Forall (fun r => is_insert r = true) rs /\
  Forall (fun r => is_formatting r = true) fs.

(** The cursor has advanced by the number of characters inserted. *)
Definition length_inv (start : Z) (rs fs : list request) (c : Z) : Prop :=
  inserted_length rs = c - start /\ inserted_length fs = 0.

(** Every StyleRange is the extent of a non-empty insertion. *)
Definition styled_inv (rs fs : list request) (c : Z) : Prop :=
  forall s e ts f, In (updateTextStyle s e ts f) fs ->
    s < e /\ exists t, In (insertText s t) rs /\ e = s + len t.

(** Nothing emitted yet, or the first insertion sits at [start]. *)
Definition first_inv (start : Z) (rs fs : list request) (c : Z) : Prop :=
  (rs = [] /\ fs = [] /\ c = start) \/
  (exists t rs', rs = insertText start t :: rs').

(** Every StyleRange ends at or before the cursor. *)
Definition behind_inv (rs fs : list request) (c : Z) : Prop :=
  forall s e ts f, In (updateTextStyle s e ts f) fs -> e <= c.

(** The cursor is past offset [k] and no StyleRange contains [k]. *)
Definition clear_inv (k : Z) (rs fs : list request) (c : Z) : Prop :=
  k < c /\
  forall s e ts f, In (updateTextStyle s e ts f) fs -> e <= k \/ k < s.

(** [clear_inv k], with the request [x] among the insertions. *)
Definition clear_with (k : Z) (x : request) (rs fs : list request) (c : Z)
    : Prop :=
  clear_inv k rs fs c /\ In x rs.

(** A property of the two request lists and the cursor, read off a state. *)
Definition holds (P : list request -> list request -> Z -> Prop) (st : State)
    : Prop :=
  P (requests st) (formatting_requests st) (current_index st).

(** ** Further vocabulary: what the walk acts on and what it keeps *)

(** A child the inner loop acts on: an emphasis marker, a soft break, or a
    [text] child with content. Every other child (inline code, links,
    images, hard breaks, empty text) falls through all its tests. *)
Definition acts (child : Token) : bool :=
  (type child =? "strong_open")%string || (type child =? "strong_close")%string
  || (type child =? "em_open")%string || (type child =? "em_close")%string
  || (type child =? "softbreak")%string
  || ((type child =? "text")%string && negb (content child =? "")%string).

(** A token with the children the inner loop passes over removed. *)
Definition prune (token : Token) : Token :=
  mkToken (type token) (tag token) (content token)
          (option_map (filter acts) (children token)).

(** A child that sets or clears the bold flag. *)
Definition touches_bold (child : Token) : bool :=
  (type child =? "strong_open")%string || (type child =? "strong_close")%string.

(** A property of the two lists and the cursor inside an inline token whose
    paragraph started at [ps]. *)
Definition state_in (Q : Z -> list request -> list request -> Z -> Prop)
    (ps : Z) (st : State) : Prop :=
  Q ps (requests st) (formatting_requests st) (current_index st).

(** The insertions tile the document from [start]: each lands where the
    earlier ones end, and the cursor is where the last one ends. *)
Definition contiguous_inv (start : Z) (rs fs : list request) (c : Z) : Prop :=
  c = start + inserted_length rs /\
  forall k i t, nth_error rs k = Some (insertText i t) ->
    i = start + inserted_length (firstn k rs).

(** The style ranges end at or before the cursor and come in increasing,
    non-overlapping order. *)
Definition style_order_inv (rs fs : list request) (c : Z) : Prop :=
  (forall s e ts f, In (updateTextStyle s e ts f) fs -> e <= c) /\
  forall j k s1 e1 ts1 f1 s2 e2 ts2 f2, (j < k)%nat ->
    nth_error fs j = Some (updateTextStyle s1 e1 ts1 f1) ->
    nth_error fs k = Some (updateTextStyle s2 e2 ts2 f2) -> e1 <= s2.

(** The paragraph ranges end before [bound] and come in increasing order,
    each separated from the next by at least one character. *)
Definition paragraph_order (bound : Z) (fs : list request) : Prop :=
  (forall s e ps f, In (updateParagraphStyle s e ps f) fs -> e < bound) /\
  forall j k s1 e1 ps1 f1 s2 e2 ps2 f2, (j < k)%nat ->
    nth_error fs j = Some (updateParagraphStyle s1 e1 ps1 f1) ->
    nth_error fs k = Some (updateParagraphStyle s2 e2 ps2 f2) -> e1 < s2.

Definition paragraph_order_inv (rs fs : list request) (c : Z) : Prop :=
  paragraph_order c fs.

Definition paragraph_order_in (ps : Z) (rs fs : list request) (c : Z) : Prop :=
  ps <= c /\ paragraph_order ps fs.

(** Every style range carries at least one of the two flags, and its field
    mask names exactly the flags it carries. *)
Definition style_kind_inv (rs fs : list request) (c : Z) : Prop :=
  forall s e ts f, In (updateTextStyle s e ts f) fs ->
    (ts = mkTextStyle true false /\ f = "bold"%string) \/
    (ts = mkTextStyle false true /\ f = "italic"%string) \/
    (ts = mkTextStyle true true /\ f = "bold,italic"%string).

Definition style_kind_in (ps : Z) (rs fs : list request) (c : Z) : Prop :=
  style_kind_inv rs fs c.

(** Every paragraph range starts where a non-empty insertion starts, ends
    where a newline is inserted, is not empty, and carries either the fixed
    spacing or one of the four named styles. *)
Definition paragraph_anchor_inv (rs fs : list request) (c : Z) : Prop :=
  forall s e sty f, In (updateParagraphStyle s e sty f) fs ->
    s < e /\
    (exists t, In (insertText s t) rs /\ 0 < len t) /\
    In (insertText e LF) rs /\
    ((sty = spaceBelow 10 "PT" /\ f = "spaceBelow"%string) \/
     (exists name, sty = namedStyleType name /\ f = "namedStyleType"%string /\
        In name ["HEADING_1"; "HEADING_2"; "HEADING_3"; "NORMAL_TEXT"]%string)).

Definition paragraph_anchor_in (ps : Z) (rs fs : list request) (c : Z) : Prop :=
  paragraph_anchor_inv rs fs c /\ ps <= c /\
  (ps < c -> exists t, In (insertText ps t) rs /\ 0 < len t).

(** A child that sets or clears the italic flag. *)
Definition touches_italic (child : Token) : bool :=
  (type child =? "em_open")%string || (type child =? "em_close")%string.

(** No token of the stream is an [inline] token. *)
Definition no_inline (tokens : list Token) : bool :=
  forallb (fun t => negb (type t =? "inline")%string) tokens.

(** markdown-it's stream for a document made of a fenced code block and a
    horizontal rule: block tokens only. *)
Definition fence_rule_tokens : list Token :=
  [mkToken "fence" "code" ("print(1)" ++ LF) None; mkToken "hr" "hr" "" None].

(** The children of a paragraph holding inline code, a link and a hard
    break around two words. *)
Definition mixed_children : list Token :=
  [text_tok "see "; mkToken "code_inline" "code" "x + y" None;
   mkToken "link_open" "a" "" None; text_tok "here";
   mkToken "link_close" "a" "" None; mkToken "hardbreak" "br" "" None].

Definition mixed_tokens : list Token :=
  [paragraph_open; inline mixed_children; paragraph_close].

(** ** Prompt templates (src/main.py, src/sl_app.py) *)

From Stdlib Require Import DecimalString.

(** [str(n)] for an [int]. *)
Definition str (n : Z) : string := NilZero.string_of_int (Z.to_int n).

(** [old in s] *)
Fixpoint occurs (old s : string) : bool :=
  String.prefix old s ||
  match s with
  | EmptyString => false
  | String _ s' => occurs old s'
  end.

(** [s.replace("", new)]: [new] before every character and at the end. *)
Fixpoint intersperse (new s : string) : string :=
  match s with
  | EmptyString => new
  | String c s' => (new ++ String c (intersperse new s'))%string
  end.

(** The scan of [s.replace(old, new)] for a non-empty [old]: the leftmost
    occurrence is replaced and the scan resumes after it; [skip] counts the
    characters of a replaced occurrence still to pass. *)
Fixpoint replace_from (old new : string) (skip : nat) (s : string) : string :=
  match s with
  | EmptyString => EmptyString
  | String c s' =>
      match skip with
      | S k => replace_from old new k s'
      | O =>
          if String.prefix old s
          then (new ++ replace_from old new (String.length old - 1) s')%string
          else String c (replace_from old new O s')
      end
  end.

(** [s.replace(old, new)] *)
Definition replace (old new s : string) : string :=
  if (old =? "")%string then intersperse new s else replace_from old new 0 s.

(** The prompt of section [i - 1]: src/main.py lines 58-63, src/sl_app.py
    lines 76-80. *)
Definition section_prompt (prompt master_extraction question_answers
    common_includes common_instructions : string) (i : Z) : string :=
  let prompt := replace "<<master_extraction>>" master_extraction prompt in
  let prompt := replace "<<question_answers>>" question_answers prompt in
  let prompt := replace "<<common_includes>>" common_includes prompt in
  let prompt := replace "<<common_instructions>>" common_instructions prompt in
  let prompt := replace "<<section_number>>" (str (i - 1)) prompt in
  prompt.

(** [response.text + "\n\n"], src/main.py line 68, src/sl_app.py line 86. *)
Definition section_mirror_profile (response_text : string) : string :=
  (response_text ++ (LF ++ LF))%string.

(** The test of src/main.py line 70. *)
Definition main_section_too_short (response_text : string) : bool :=
  negb (section_mirror_profile response_text =? "test")%string &&
  (len (section_mirror_profile response_text) <? 20).

(** The test of src/sl_app.py line 88. *)
Definition app_section_too_short (response_text : string) : bool :=
  len (section_mirror_profile response_text) <? 20.

(** No character of [a] occurs in [b]. *)
Fixpoint mem_char (c : ascii) (s : string) : bool :=
  match s with
  | EmptyString => false
  | String d s' => Ascii.eqb c d || mem_char c s'
  end.

Fixpoint disjoint_chars (a b : string) : bool :=
  match a with
  | EmptyString => true
  | String c a' => negb (mem_char c b) && disjoint_chars a' b
  end.

(** ** The Google Docs calls: src/google_docs_integration.py, lines 193-385

    The Streamlit secrets, the file system, the credential loaders and the
    Drive and Docs services are outside the repository. One run of a
    function sees one outcome of each of them; a [World] holds these
    outcomes. The functions return the calls they sent and the lines they
    printed, in order, and their result. *)

(** A raised exception: [FileNotFoundError], or any other subclass of
    [Exception]. The argument is [str(e)]. *)
Inductive exn : Type :=
| FileNotFoundError (message : string)
| OtherException (message : string).

Definition str_exn (e : exn) : string :=
  match e with
  | FileNotFoundError m => m
  | OtherException m => m
  end.

(** [st.secrets["google_credentials"]]: the service account info. *)
Definition secret : Type := list (string * string).

(** The credentials object, by the loader that built it. *)
Inductive credentials : Type :=
| service_account_info (info : secret)
| service_account_file (path : string).

(** The part of a Docs document [append_to_google_doc] reads:
    [doc.get('body')], its [.get('content')], and the [.get('endIndex')] of
    each structural element; [None] where a key is missing. *)
Definition document : Type := option (option (list (option Z))).

(** What leaves the process. *)
Inductive call : Type :=
| printed (line : string)
| files_create (name mimeType : string) (parents : list string)
| documents_get (documentId : string)
| documents_batchUpdate (documentId : option string) (requests : list request).

Record World : Type := mkWorld {
  (** [hasattr(st, 'secrets') and "google_credentials" in st.secrets], then
      the lookup: raises, is false, or yields the info *)
  st_secrets : exn + option secret;
  (** [Credentials.from_service_account_info] raises or returns *)
  from_service_account_info : secret -> option exn;
  (** [os.path.exists('./credentials.json')] *)
  credentials_json_exists : bool;
  (** [Credentials.from_service_account_file] raises or returns *)
  from_service_account_file : option exn;
  (** [build(serviceName, version, credentials=creds)] raises or returns *)
  build : string -> string -> credentials -> option exn;
  (** [files().create(...).execute()] raises or returns a file; the value is
      [file.get('id')] *)
  files_create_execute : string -> string -> list string -> exn + option string;
  (** [documents().get(documentId=...).execute()] *)
  documents_get_execute : string -> exn + document;
  (** [documents().batchUpdate(...).execute()] raises or returns *)
  documents_batchUpdate_execute : option string -> list request -> option exn;
  (** [md.parse] *)
  md_parse : string -> list Token;
  (** [str(e)] of the exception [int(token.tag[1])] raises *)
  conversion_error : string
}.

(** A computation that sends calls and returns or raises. *)
Definition M (A : Type) : Type := (list call * (exn + A))%type.

Definition ret {A : Type} (a : A) : M A := ([], inr a).

Definition raise {A : Type} (e : exn) : M A := ([], inl e).

Definition bind {A B : Type} (m : M A) (k : A -> M B) : M B :=
  match m with
  | (t, inl e) => (t, inl e)
  | (t, inr a) => let (t', r) := k a in (t ++ t', r)
  end.

(** [try: m except Exception as e: h e] *)
Definition catch {A : Type} (m : M A) (h : exn -> M A) : M A :=
  match m with
  | (t, inl e) => let (t', r) := h e in (t ++ t', r)
  | (t, inr a) => (t, inr a)
  end.

Definition emit (c : call) : M unit := ([c], inr tt).

Definition outcome (o : option exn) : M unit :=
  match o with
  | Some e => raise e
  | None => ret tt
  end.

Definition returned {A : Type} (o : exn + A) : M A := ([], o).

Notation "x <- m ;; k" := (bind m (fun x => k))
  (at level 61, m at next level, right associativity).
Notation "m ;; k" := (bind m (fun _ => k))
  (at level 61, right associativity).

(** The message of lines 218-228. *)
Definition credentials_help : string :=
  ("Credentials not found!" ++ LF ++ LF ++
   "For Streamlit Cloud deployment:" ++ LF ++
   "  1. Go to your app settings" ++ LF ++
   "  2. Click 'Secrets'" ++ LF ++
   "  3. Add your Google service account JSON as 'google_credentials'"
     ++ LF ++ LF ++
   "For local development:" ++ LF ++
   "  1. Download credentials.json from Google Cloud Console" ++ LF ++
   "  2. Place it in the same directory as this file" ++ LF ++
   "  3. Visit: https://console.cloud.google.com/apis/credentials")%string.

(** [get_credentials], lines 193-228. *)
Definition get_credentials (w : World) : M credentials :=
  from_secrets <-
    catch
      (match st_secrets w with
       | inl e => raise e
       | inr (Some info) =>
           outcome (from_service_account_info w info) ;;
           ret (Some (service_account_info info))
       | inr None => ret None
       end)
      (fun e =>
         emit (printed ("Could not load from Streamlit secrets: "
                        ++ str_exn e)) ;;
         ret None) ;;
  match from_secrets with
  | Some creds => ret creds
  | None =>
      if credentials_json_exists w then
        outcome (from_service_account_file w) ;;
        ret (service_account_file "./credentials.json")
      else raise (FileNotFoundError credentials_help)
  end.

(** The dict a call returns: lines 300-305 ([created]), 375-378
    ([appended]), and the two-key dict of the handlers ([failed]). *)
Inductive response : Type :=
| created (document_id : option string) (document_url message : string)
| appended (message : string)
| failed (message : string).

(** [response['success']] *)
Definition success (r : response) : bool :=
  match r with
  | failed _ => false
  | _ => true
  end.

(** [f'{document_id}'] *)
Definition format_id (document_id : option string) : string :=
  match document_id with
  | Some s => s
  | None => "None"
  end.

(** The call of [markdown_to_docs_requests] from the two functions. *)
Definition convert (w : World) (content : string) (start_index : Z)
    : M (list request) :=
  match markdown_to_docs_requests (md_parse w) content start_index with
  | Some requests => ret requests
  | None => raise (OtherException (conversion_error w))
  end.

(** [if requests: ...batchUpdate(...).execute()] *)
Definition send_batch (w : World) (document_id : option string)
    (requests : list request) : M unit :=
  match requests with
  | [] => ret tt
  | _ :: _ =>
      emit (documents_batchUpdate document_id requests) ;;
      outcome (documents_batchUpdate_execute w document_id requests)
  end.

Definition default_folder_id : string := "0AIKRNYJ7JQZnUk9PVA".

Definition document_mime : string := "application/vnd.google-apps.document".

(** [create_google_doc], lines 231-316. *)
Definition create_google_doc (w : World) (title content folder_id : string)
    : list call * response :=
  let attempt : M response :=
    creds <- get_credentials w ;;
    outcome (build w "drive" "v3" creds) ;;
    outcome (build w "docs" "v1" creds) ;;
    emit (files_create title document_mime [folder_id]) ;;
    document_id <-
      returned (files_create_execute w title document_mime [folder_id]) ;;
    requests <- convert w content 1 ;;
    send_batch w document_id requests ;;
    let document_url :=
      ("https://docs.google.com/document/d/" ++ format_id document_id
       ++ "/edit")%string in
    ret (created document_id document_url "Document created successfully!")
  in
  match attempt with
  | (t, inr r) => (t, r)
  | (t, inl (FileNotFoundError m)) => (t, failed m)
  | (t, inl (OtherException m)) =>
      (t, failed ("Error creating document: " ++ m))
  end.

(** [doc.get('body').get('content')[-1].get('endIndex') - 1], line 361,
    with the exceptions CPython raises on a missing key or an empty list. *)
Definition end_index_of (doc : document) : exn + Z :=
  match doc with
  | None => inl (OtherException "'NoneType' object has no attribute 'get'")
  | Some None => inl (OtherException "'NoneType' object has no attribute 'get'")
  | Some (Some elements) =>
      match rev elements with
      | [] => inl (OtherException "list index out of range")
      | None :: _ =>
          inl (OtherException
                 "unsupported operand type(s) for -: 'NoneType' and 'int'")
      | Some endIndex :: _ => inr (endIndex - 1)
      end
  end.

(** [append_to_google_doc], lines 319-385. *)
Definition append_to_google_doc (w : World) (document_id content : string)
    : list call * response :=
  let attempt : M response :=
    creds <- get_credentials w ;;
    outcome (build w "docs" "v1" creds) ;;
    emit (documents_get document_id) ;;
    doc <- returned (documents_get_execute w document_id) ;;
    end_index <- returned (end_index_of doc) ;;
    requests <- convert w content end_index ;;
    send_batch w (Some document_id) requests ;;
    ret (appended "Content appended successfully!")
  in
  match attempt with
  | (t, inr r) => (t, r)
  | (t, inl e) => (t, failed ("Error appending to document: " ++ str_exn e))
  end.

(** A run in which there are no secrets, the credentials file loads, every
    service answers, the new file gets the id doc-1 and the document read
    back ends at index 12. *)
Definition quiet_world : World :=
  mkWorld (inr None) (fun _ => None) true None (fun _ _ _ => None)
          (fun _ _ _ => inr (Some "doc-1"))
          (fun _ => inr (Some (Some [Some 1; Some 12])))
          (fun _ _ => None) reference_parse "".

(** A run without secrets and without a credentials file. *)
Definition bare_world : World :=
  mkWorld (inr None) (fun _ => None) false None (fun _ _ _ => None)
          (fun _ _ _ => inr (Some "doc-1"))
          (fun _ => inr (Some (Some [Some 1; Some 12])))
          (fun _ _ => None) reference_parse "".

(** A run in which the file is created and the batch update is refused. *)
Definition refusing_world : World :=
  mkWorld (inr None) (fun _ => None) true None (fun _ _ _ => None)
          (fun _ _ _ => inr (Some "doc-1"))
          (fun _ => inr (Some (Some [Some 1; Some 12])))
          (fun _ _ => Some (OtherException "HttpError 400"))
          reference_parse "".

(** The batch of the title document at start offset 1. *)
Definition rs_of_title : list request :=
  [insertText 1 "Title"; insertText 6 LF;
   updateParagraphStyle 1 6 (namedStyleType "HEADING_1") "namedStyleType"].


(** No child of any token opens an emphasis run. *)
Definition opens_emphasis (child : Token) : bool :=
  (type child =? "strong_open")%string || (type child =? "em_open")%string.

Definition unemphasized (tokens : list Token) : bool :=
  forallb (fun t => forallb (fun c => negb (opens_emphasis c)) (children_of t))
          tokens.



(** ** Walking one stream after another *)

(** A state seen after earlier output: [pre_r] and [pre_f] were emitted
    before its own requests. *)
Definition resume (pre_r pre_f : list request) (st : State) : State :=
  mkState (pre_r ++ requests st) (pre_f ++ formatting_requests st)
          (current_index st) (current_heading_level st)
          (is_bold st) (is_italic st).

(** The stream begins with an [inline] token. *)
Definition starts_with_inline (tokens : list Token) : bool :=
  match tokens with
  | t :: _ => (type t =? "inline")%string
  | [] => false
  end.

(** Two states that differ at most in the emphasis flags. *)
Definition same_output (st st' : State) : Prop :=
  requests st = requests st' /\
  formatting_requests st = formatting_requests st' /\
  current_index st = current_index st' /\
  current_heading_level st = current_heading_level st'.

(** Two outcomes of the walk that differ at most in the emphasis flags. *)
Definition same_outcome (o o' : option State) : Prop :=
  match o, o' with
  | Some st, Some st' => same_output st st'
  | None, None => True
  | _, _ => False
  end.

(** ** Elementary facts *)

Lemma len_nonneg (s : string) : 0 <= len s.
Proof. unfold len. lia. Qed.

Lemma len_pos (s : string) : (s =? "")%string = false -> 0 < len s.
Proof.
  destruct s as [|c s]; simpl.
  - discriminate.
  - intros _. unfold len. simpl String.length. lia.
Qed.

Lemma len_LF : len LF = 1.
Proof. reflexivity. Qed.

Lemma len_SPACE : len SPACE = 1.
Proof. reflexivity. Qed.

Lemma children_loop_app (a b : list Token) (st : State) :
  children_loop (a ++ b) st = children_loop b (children_loop a st).
Proof. unfold children_loop. apply fold_left_app. Qed.

Lemma run_children_loop (token : Token) (st : State) :
  run_children token st = children_loop (children_of token) st.
Proof.
  unfold run_children, children_of.
  destruct (children token) as [[|c cs]|]; reflexivity.
Qed.

(** ** Invariants of the walk

    A property of the two lists and the cursor that every emission keeps is
    kept by the whole walk. *)
Section Invariant.

Variable P : list request -> list request -> Z -> Prop.

Hypothesis P_insert : forall rs fs c t,
  P rs fs c -> P (rs ++ [insertText c t]) fs (c + len t).

Hypothesis P_styled : forall rs fs c t ts f,
  P rs fs c -> 0 < len t ->
  P (rs ++ [insertText c t]) (fs ++ [updateTextStyle c (c + len t) ts f])
    (c + len t).

Hypothesis P_paragraph : forall rs fs c s e ps f,
  P rs fs c -> rs <> [] -> s < e -> e < c ->
  P rs (fs ++ [updateParagraphStyle s e ps f]) c.

Lemma child_step_holds (child : Token) (st : State) :
  holds P st -> holds P (child_step child st).
Proof.
  unfold holds, child_step. intros H.
  repeat match goal with
         | |- context [if ?b then _ else _] => destruct b eqn:?
         end; simpl; try assumption.
  - rewrite <- len_SPACE. now apply P_insert.
  - apply P_styled; [assumption|].
    match goal with
    | Ht : (_ && negb _)%bool = true |- _ =>
        apply andb_prop in Ht; destruct Ht as [_ Hne]
    end.
    apply len_pos. now destruct (content child =? "")%string.
  - now apply P_insert.
Qed.

Lemma children_loop_holds (cs : list Token) (st : State) :
  holds P st -> holds P (children_loop cs st).
Proof.
  revert st. induction cs as [|c cs IH]; intros st H; simpl.
  - exact H.
  - apply IH. now apply child_step_holds.
Qed.

Lemma inline_finish_holds tokens i ps st1 st' :
  holds P st1 -> inline_finish tokens i ps st1 = Some st' -> holds P st'.
Proof.
  unfold holds, inline_finish. intros H E.
  assert (H2 : P (requests st1 ++ [insertText (current_index st1) LF])
                 (formatting_requests st1) (current_index st1 + 1)).
  { rewrite <- len_LF. now apply P_insert. }
  assert (Hne : requests st1 ++ [insertText (current_index st1) LF] <> []).
  { intros F. apply app_eq_nil in F. destruct F as [_ F]. discriminate. }
  simpl in E.
  destruct (current_index st1 >? ps) eqn:Hgt.
  - apply Z.gtb_lt in Hgt.
    destruct (current_heading_level st1).
    + inversion E; subst; simpl.
      apply P_paragraph; [assumption|assumption|lia|lia].
    + destruct (after_paragraph_open tokens i) as [[|]|]; inversion E; subst;
        simpl; [apply P_paragraph; [assumption|assumption|lia|lia] | assumption].
  - inversion E; subst; simpl. assumption.
Qed.

Lemma token_step_holds tokens i token st st' :
  holds P st -> token_step tokens i token st = Some st' -> holds P st'.
Proof.
  unfold token_step. intros H E.
  destruct (type token =? "heading_open")%string.
  { destruct (heading_level (tag token)); inversion E; subst. exact H. }
  destruct (type token =? "heading_close")%string.
  { inversion E; subst. exact H. }
  destruct (type token =? "inline")%string.
  - unfold inline_step in E.
    eapply inline_finish_holds; [|exact E].
    rewrite run_children_loop. apply children_loop_holds. exact H.
  - inversion E; subst. exact H.
Qed.

Lemma token_loop_holds tokens rest : forall i st st',
  holds P st -> token_loop tokens i rest st = Some st' -> holds P st'.
Proof.
  induction rest as [|token rest IH]; intros i st st' H E; simpl in E.
  - inversion E; subst. exact H.
  - destruct (token_step tokens i token st) as [st1|] eqn:E1; [|discriminate].
    eapply IH; [|exact E]. eapply token_step_holds; eassumption.
Qed.

End Invariant.

(** ** The outer loop: composition and termination without error *)

(** A [heading_open] token whose tag has no digit in second position makes
    [int(token.tag[1])] raise; markdown-it never produces one. *)
Example malformed_heading_tag_raises :
  final_state [heading_open "h"] 1 = None /\
  final_state [heading_open "hx"] 1 = None /\
  heading_tags_ok [heading_open "h"] = false.
Proof. repeat split. Qed.

Lemma token_loop_app tokens a b : forall i st,
  token_loop tokens i (a ++ b) st =
  match token_loop tokens i a st with
  | Some st1 => token_loop tokens (i + List.length a) b st1
  | None => None
  end.
Proof.
  induction a as [|t a IH]; intros i st; simpl.
  - now rewrite Nat.add_0_r.
  - destruct (token_step tokens i t st) as [st1|]; [|reflexivity].
    rewrite IH. now rewrite Nat.add_succ_r.
Qed.

Lemma after_paragraph_open_defined (pre rest : list Token) :
  exists b, after_paragraph_open (pre ++ rest) (List.length pre) = Some b.
Proof.
  unfold after_paragraph_open.
  destruct (List.length pre) as [|j] eqn:E.
  - now exists false.
  - destruct (nth_error (pre ++ rest) j) as [prev|] eqn:N.
    + eauto.
    + apply nth_error_None in N. rewrite length_app in N. lia.
Qed.

Lemma token_step_defined pre token rest st :
  heading_tag_ok token = true ->
  exists st', token_step (pre ++ token :: rest) (List.length pre) token st = Some st'.
Proof.
  unfold heading_tag_ok, token_step. intros Hok.
  destruct (type token =? "heading_open")%string.
  { destruct (heading_level (tag token)); [eauto|discriminate]. }
  destruct (type token =? "heading_close")%string; [eauto|].
  destruct (type token =? "inline")%string; [|eauto].
  unfold inline_step, inline_finish.
  destruct (after_paragraph_open_defined pre (token :: rest)) as [b ->].
  repeat match goal with
         | |- context [if ?c then _ else _] => destruct c
         | |- context [match ?c with Some _ => _ | None => _ end] => destruct c
         end; eauto.
Qed.

Lemma token_loop_defined rest : forall pre st,
  heading_tags_ok rest = true ->
  exists st', token_loop (pre ++ rest) (List.length pre) rest st = Some st'.
Proof.
  induction rest as [|token rest IH]; intros pre st Hok; simpl.
  - eauto.
  - simpl in Hok. apply andb_prop in Hok. destruct Hok as [Ht Hr].
    destruct (token_step_defined pre token rest st Ht) as [st1 ->].
    specialize (IH (pre ++ [token]) st1 Hr).
    rewrite <- app_assoc, length_app, Nat.add_1_r in IH. exact IH.
Qed.

Lemma final_state_defined tokens start_index :
  heading_tags_ok tokens = true ->
  exists st, final_state tokens start_index = Some st.
Proof. intros H. exact (token_loop_defined tokens [] (prelude start_index) H). Qed.

(** ** Moving a walk: a different cursor, an earlier prefix of requests *)

Lemma child_step_shift d child st :
  child_step child (shift_state d st) = shift_state d (child_step child st).
Proof.
  unfold child_step, shift_state; simpl.
  repeat match goal with
         | |- context [if ?b then _ else _] => destruct b
         end; simpl; rewrite ?map_app; simpl; try reflexivity.
  all: now rewrite (Z.add_shuffle0 (current_index st) d).
Qed.

Lemma children_loop_shift d cs : forall st,
  children_loop cs (shift_state d st) = shift_state d (children_loop cs st).
Proof.
  induction cs as [|c cs IH]; intros st; simpl; [reflexivity|].
  now rewrite child_step_shift, IH.
Qed.

Lemma inline_finish_shift d tokens i ps st1 :
  inline_finish tokens i (ps + d) (shift_state d st1) =
  option_map (shift_state d) (inline_finish tokens i ps st1).
Proof.
  unfold inline_finish; simpl.
  replace (current_index st1 + d >? ps + d) with (current_index st1 >? ps)
    by (rewrite !Z.gtb_ltb; destruct (Z.ltb_spec ps (current_index st1));
        symmetry; [apply Z.ltb_lt|apply Z.ltb_ge]; lia).
  destruct (current_index st1 >? ps);
    [destruct (current_heading_level st1);
       [|destruct (after_paragraph_open tokens i) as [[|]|]]|];
    simpl; try reflexivity; unfold shift_state; simpl; rewrite ?map_app; simpl;
    now rewrite (Z.add_shuffle0 (current_index st1) d).
Qed.

Lemma token_step_shift d tokens i token st :
  token_step tokens i token (shift_state d st) =
  option_map (shift_state d) (token_step tokens i token st).
Proof.
  unfold token_step.
  destruct (type token =? "heading_open")%string.
  { destruct (heading_level (tag token)); reflexivity. }
  destruct (type token =? "heading_close")%string; [reflexivity|].
  destruct (type token =? "inline")%string; [|reflexivity].
  unfold inline_step.
  rewrite !run_children_loop.
  change (reset_flags (shift_state d st)) with (shift_state d (reset_flags st)).
  rewrite children_loop_shift.
  change (current_index (shift_state d st)) with (current_index st + d).
  apply inline_finish_shift.
Qed.

Lemma token_loop_shift d tokens rest : forall i st,
  token_loop tokens i rest (shift_state d st) =
  option_map (shift_state d) (token_loop tokens i rest st).
Proof.
  induction rest as [|token rest IH]; intros i st; simpl; [reflexivity|].
  rewrite token_step_shift.
  destruct (token_step tokens i token st) as [st1|]; simpl; [apply IH|reflexivity].
Qed.

Lemma child_step_prepend pre child st :
  child_step child (prepend pre st) = prepend pre (child_step child st).
Proof.
  unfold child_step, prepend; simpl.
  repeat match goal with
         | |- context [if ?b then _ else _] => destruct b
         end; simpl; rewrite ?app_assoc; reflexivity.
Qed.

Lemma children_loop_prepend pre cs : forall st,
  children_loop cs (prepend pre st) = prepend pre (children_loop cs st).
Proof.
  induction cs as [|c cs IH]; intros st; simpl; [reflexivity|].
  now rewrite child_step_prepend, IH.
Qed.

Lemma inline_finish_prepend pre tokens i ps st1 :
  inline_finish tokens i ps (prepend pre st1) =
  option_map (prepend pre) (inline_finish tokens i ps st1).
Proof.
  unfold inline_finish; simpl.
  destruct (current_index st1 >? ps).
  - destruct (current_heading_level st1).
    + unfold prepend; simpl. now rewrite app_assoc.
    + destruct (after_paragraph_open tokens i) as [[|]|]; simpl; [| |reflexivity];
        unfold prepend; simpl; now rewrite app_assoc.
  - unfold prepend; simpl. now rewrite app_assoc.
Qed.

Lemma token_step_prepend pre tokens i token st :
  token_step tokens i token (prepend pre st) =
  option_map (prepend pre) (token_step tokens i token st).
Proof.
  unfold token_step.
  destruct (type token =? "heading_open")%string.
  { destruct (heading_level (tag token)); reflexivity. }
  destruct (type token =? "heading_close")%string; [reflexivity|].
  destruct (type token =? "inline")%string; [|reflexivity].
  unfold inline_step.
  rewrite !run_children_loop.
  change (reset_flags (prepend pre st)) with (prepend pre (reset_flags st)).
  rewrite children_loop_prepend.
  change (current_index (prepend pre st)) with (current_index st).
  apply inline_finish_prepend.
Qed.

Lemma token_loop_prepend pre tokens rest : forall i st,
  token_loop tokens i rest (prepend pre st) =
  option_map (prepend pre) (token_loop tokens i rest st).
Proof.
  induction rest as [|token rest IH]; intros i st; simpl; [reflexivity|].
  rewrite token_step_prepend.
  destruct (token_step tokens i token st) as [st1|]; simpl; [apply IH|reflexivity].
Qed.

Lemma prelude_relocate start_index :
  prelude start_index =
  prepend (separator start_index)
          (shift_state (body_start start_index - 1) (prelude 1)).
Proof.
  unfold prelude, separator, body_start, prepend, shift_state.
  destruct (start_index >? 1); cbn -[Z.add Z.sub]; f_equal; lia.
Qed.

(** The walk from any start offset is the walk from offset 1, moved to the
    cursor the markup starts at and preceded by the separator. *)
Lemma final_state_relocate tokens start_index :
  final_state tokens start_index =
  option_map (fun st => prepend (separator start_index)
                          (shift_state (body_start start_index - 1) st))
             (final_state tokens 1).
Proof.
  unfold final_state.
  rewrite (prelude_relocate start_index), token_loop_prepend, token_loop_shift.
  destruct (token_loop tokens 0 tokens (prelude 1)); reflexivity.
Qed.

Lemma batch_of_relocate pre d st :
  batch_of (prepend pre (shift_state d st)) =
  pre ++ map (shift_request d) (batch_of st).
Proof.
  unfold batch_of, prepend, shift_state; simpl.
  now rewrite map_app, app_assoc.
Qed.

(** ** The shape of a batch *)

Lemma inserted_texts_app (a b : list request) :
  inserted_texts (a ++ b) = inserted_texts a ++ inserted_texts b.
Proof.
  induction a as [|r a IH]; simpl; [reflexivity|].
  destruct r; simpl; now rewrite IH.
Qed.

Lemma inserted_length_app (a b : list request) :
  inserted_length (a ++ b) = inserted_length a + inserted_length b.
Proof.
  unfold inserted_length. rewrite inserted_texts_app.
  induction (inserted_texts a) as [|t l IH]; simpl; [reflexivity|].
  rewrite IH. lia.
Qed.

Lemma insert_position (rs fs : list request) (i : nat) (r : request) :
  Forall (fun r => is_insert r = true) rs ->
  Forall (fun r => is_formatting r = true) fs ->
  nth_error (rs ++ fs) i = Some r ->
  (is_insert r = true -> (i < List.length rs)%nat) /\
  (is_formatting r = true -> (List.length rs <= i)%nat).
Proof.
  intros Hr Hf E.
  destruct (Nat.lt_ge_cases i (List.length rs)) as [Hlt|Hge].
  - rewrite nth_error_app1 in E by exact Hlt.
    apply nth_error_In in E. rewrite Forall_forall in Hr. apply Hr in E.
    split; [intros _; exact Hlt|].
    intros F. destruct r; simpl in *; discriminate.
  - rewrite nth_error_app2 in E by exact Hge.
    apply nth_error_In in E. rewrite Forall_forall in Hf. apply Hf in E.
    split; [|intros _; exact Hge].
    intros F. destruct r; simpl in *; discriminate.
Qed.

Lemma ordered_inv_prelude start_index : holds ordered_inv (prelude start_index).
Proof.
  unfold holds, ordered_inv, prelude.
  destruct (start_index >? 1); simpl; split; repeat constructor.
Qed.

Lemma ordered_inv_final tokens start_index st :
  final_state tokens start_index = Some st -> holds ordered_inv st.
Proof.
  unfold final_state. intros E.
  eapply (token_loop_holds ordered_inv); [| | |apply ordered_inv_prelude|exact E];
    unfold ordered_inv; intros; intuition;
    apply Forall_app; split; auto; repeat constructor.
Qed.

(** C1. In the batch [markdown_to_docs_requests] returns, every insertText
    request stands before every updateTextStyle and updateParagraphStyle
    request, for every markup text and start offset. *)
Theorem inserts_precede_formatting
    (md_parse : string -> list Token) (markdown_content : string)
    (start_index : Z) :
  heading_tags_ok (md_parse markdown_content) = true ->
  exists batch,
    markdown_to_docs_requests md_parse markdown_content start_index = Some batch /\
    forall i j ri rj,
      nth_error batch i = Some ri -> is_insert ri = true ->
      nth_error batch j = Some rj -> is_formatting rj = true ->
      (i < j)%nat.
Proof.
  intros Hok. unfold markdown_to_docs_requests.
  destruct (final_state_defined _ start_index Hok) as [st E].
  rewrite E. exists (batch_of st). split; [reflexivity|].
  destruct (ordered_inv_final _ _ _ E) as [Hr Hf].
  intros i j ri rj Ei Hi Ej Hj. unfold batch_of in Ei, Ej.
  destruct (insert_position _ _ _ _ Hr Hf Ei) as [Li _].
  destruct (insert_position _ _ _ _ Hr Hf Ej) as [_ Lj].
  specialize (Li Hi). specialize (Lj Hj). lia.
Qed.

Lemma inserts_precede_formatting_witness :
  exists batch,
    markdown_to_docs_requests reference_parse bold_bold_markdown 7 = Some batch /\
    forall i j ri rj,
      nth_error batch i = Some ri -> is_insert ri = true ->
      nth_error batch j = Some rj -> is_formatting rj = true ->
      (i < j)%nat.
Proof. apply inserts_precede_formatting. reflexivity. Defined.

(** ** Characters inserted and the cursor *)

Lemma inserted_length_insert (i : Z) (t : string) :
  inserted_length [insertText i t] = len t.
Proof. unfold inserted_length; simpl. lia. Qed.

Lemma length_inv_prelude start_index :
  holds (length_inv start_index) (prelude start_index).
Proof.
  unfold holds, length_inv, prelude.
  destruct (start_index >? 1); cbn -[Z.add Z.sub]; split;
    try reflexivity; unfold inserted_length; cbn -[Z.add Z.sub]; lia.
Qed.

Lemma length_inv_final tokens start_index st :
  final_state tokens start_index = Some st ->
  holds (length_inv start_index) st.
Proof.
  unfold final_state. intros E.
  eapply (token_loop_holds (length_inv start_index));
    [| | |apply length_inv_prelude|exact E];
    unfold length_inv; intros rs fs c; intros;
    rewrite ?inserted_length_app, ?inserted_length_insert;
    change (inserted_length [updateTextStyle _ _ _ _]) with 0;
    change (inserted_length [updateParagraphStyle _ _ _ _]) with 0; lia.
Qed.

(** C3. For a batch started at offset K, the lengths of the strings its
    insertText requests insert add up to the final cursor minus K. *)
Theorem inserted_length_is_cursor_advance
    (md_parse : string -> list Token) (markdown_content : string) (K : Z) :
  heading_tags_ok (md_parse markdown_content) = true ->
  exists st,
    final_state (md_parse markdown_content) K = Some st /\
    markdown_to_docs_requests md_parse markdown_content K = Some (batch_of st) /\
    inserted_length (batch_of st) = current_index st - K.
Proof.
  intros Hok. unfold markdown_to_docs_requests.
  destruct (final_state_defined _ K Hok) as [st E].
  exists st. rewrite E. repeat split.
  destruct (length_inv_final _ _ _ E) as [Hr Hf].
  unfold batch_of. rewrite inserted_length_app. lia.
Qed.

Lemma inserted_length_is_cursor_advance_witness :
  exists st,
    final_state (reference_parse a_b_markdown) 9 = Some st /\
    markdown_to_docs_requests reference_parse a_b_markdown 9 = Some (batch_of st) /\
    inserted_length (batch_of st) = current_index st - 9.
Proof. apply inserted_length_is_cursor_advance. reflexivity. Defined.

(** ** Style ranges *)

Lemma styled_inv_prelude start_index : holds styled_inv (prelude start_index).
Proof.
  unfold holds, styled_inv, prelude.
  destruct (start_index >? 1); simpl; intros s e ts f [].
Qed.

Lemma styled_inv_final tokens start_index st :
  final_state tokens start_index = Some st -> holds styled_inv st.
Proof.
  unfold final_state. intros E.
  eapply (token_loop_holds styled_inv); [| | |apply styled_inv_prelude|exact E];
    unfold styled_inv.
  - intros rs fs c t H s e ts f Hin.
    destruct (H s e ts f Hin) as [Hlt [u [Hu He]]].
    split; [exact Hlt|]. exists u. split; [|exact He].
    apply in_or_app. now left.
  - intros rs fs c t ts0 f0 H Hpos s e ts f Hin.
    apply in_app_or in Hin. destruct Hin as [Hin|[Heq|[]]].
    + destruct (H s e ts f Hin) as [Hlt [u [Hu He]]].
      split; [exact Hlt|]. exists u. split; [|exact He].
      apply in_or_app. now left.
    + inversion Heq; subst. split; [lia|]. exists t. split; [|reflexivity].
      apply in_or_app. right. now left.
  - intros rs fs c s0 e0 ps f0 H _ _ _ s e ts f Hin.
    apply in_app_or in Hin. destruct Hin as [Hin|[Heq|[]]].
    + exact (H s e ts f Hin).
    + discriminate.
Qed.

(** C7. Every updateTextStyle request of the returned batch has
    startIndex < endIndex, and an insertText request earlier in the batch
    inserts, at startIndex, text that reaches exactly to endIndex: both
    offsets lie in the span that insertion covers. *)
Theorem style_ranges_cover_inserted_text
    (md_parse : string -> list Token) (markdown_content : string)
    (start_index : Z) :
  heading_tags_ok (md_parse markdown_content) = true ->
  exists batch,
    markdown_to_docs_requests md_parse markdown_content start_index = Some batch /\
    forall k s e ts f,
      nth_error batch k = Some (updateTextStyle s e ts f) ->
      s < e /\
      exists j i t,
        (j < k)%nat /\ nth_error batch j = Some (insertText i t) /\
        i <= s /\ e <= i + len t /\ i = s /\ e = i + len t.
Proof.
  intros Hok. unfold markdown_to_docs_requests.
  destruct (final_state_defined _ start_index Hok) as [st E].
  rewrite E. exists (batch_of st). split; [reflexivity|].
  destruct (ordered_inv_final _ _ _ E) as [Hr Hf].
  pose proof (styled_inv_final _ _ _ E) as Hs.
  unfold holds, styled_inv in Hs. unfold batch_of.
  intros k s e ts f Ek.
  destruct (insert_position _ _ _ _ Hr Hf Ek) as [_ Lk].
  specialize (Lk eq_refl).
  pose proof Ek as Ek'. rewrite nth_error_app2 in Ek' by exact Lk.
  apply nth_error_In in Ek'.
  destruct (Hs s e ts f Ek') as [Hlt [t [Hin He]]].
  split; [exact Hlt|].
  apply In_nth_error in Hin. destruct Hin as [j Ej].
  assert (Lj : (j < List.length (requests st))%nat).
  { apply nth_error_Some. rewrite Ej. discriminate. }
  exists j, s, t. repeat split; try lia.
  rewrite nth_error_app1 by exact Lj. exact Ej.
Qed.

Lemma style_ranges_cover_inserted_text_witness :
  exists batch,
    markdown_to_docs_requests reference_parse bold_bold_markdown 1 = Some batch /\
    forall k s e ts f,
      nth_error batch k = Some (updateTextStyle s e ts f) ->
      s < e /\
      exists j i t,
        (j < k)%nat /\ nth_error batch j = Some (insertText i t) /\
        i <= s /\ e <= i + len t /\ i = s /\ e = i + len t.
Proof. apply style_ranges_cover_inserted_text. reflexivity. Defined.

(** ** The separator and the first insertion *)

Lemma first_inv_final tokens st :
  final_state tokens 1 = Some st -> holds (first_inv 1) st.
Proof.
  unfold final_state. intros E.
  eapply (token_loop_holds (first_inv 1)); [| | | |exact E]; unfold first_inv.
  - intros rs fs c t [[-> [_ ->]]|[u [rs' ->]]]; right; simpl; eauto.
  - intros rs fs c t ts f [[-> [_ ->]]|[u [rs' ->]]] _; right; simpl; eauto.
  - intros rs fs c s e ps f [[-> _]|H] Hne _ _; [now elim Hne|now right].
  - left. repeat split.
Qed.

Lemma child_step_texts child st :
  inserted_texts (requests (child_step child st)) =
  inserted_texts (requests st) ++ child_texts child.
Proof.
  unfold child_step, child_texts.
  destruct (type child =? "strong_open")%string eqn:E1.
  { apply String.eqb_eq in E1. rewrite E1. simpl. now rewrite app_nil_r. }
  destruct (type child =? "strong_close")%string eqn:E2.
  { apply String.eqb_eq in E2. rewrite E2. simpl. now rewrite app_nil_r. }
  destruct (type child =? "em_open")%string eqn:E3.
  { apply String.eqb_eq in E3. rewrite E3. simpl. now rewrite app_nil_r. }
  destruct (type child =? "em_close")%string eqn:E4.
  { apply String.eqb_eq in E4. rewrite E4. simpl. now rewrite app_nil_r. }
  destruct (type child =? "softbreak")%string.
  { simpl. now rewrite inserted_texts_app. }
  destruct ((type child =? "text")%string && negb (content child =? "")%string);
    simpl; [now rewrite inserted_texts_app | now rewrite app_nil_r].
Qed.

Lemma children_loop_texts cs : forall st,
  inserted_texts (requests (children_loop cs st)) =
  inserted_texts (requests st) ++ flat_map child_texts cs.
Proof.
  induction cs as [|c cs IH]; intros st; simpl.
  - now rewrite app_nil_r.
  - rewrite IH, child_step_texts. now rewrite <- app_assoc.
Qed.

Lemma inline_finish_texts tokens i ps st1 st' :
  inline_finish tokens i ps st1 = Some st' ->
  inserted_texts (requests st') = inserted_texts (requests st1) ++ [LF].
Proof.
  unfold inline_finish. intros E.
  repeat match type of E with
         | context [if ?c then _ else _] => destruct c
         | context [match ?c with Some _ => _ | None => _ end] => destruct c
         end; inversion E; subst; simpl; now rewrite inserted_texts_app.
Qed.

Lemma token_step_texts tokens i token st st' :
  token_step tokens i token st = Some st' ->
  inserted_texts (requests st') = inserted_texts (requests st) ++ token_texts token.
Proof.
  unfold token_step, token_texts. intros E.
  destruct (type token =? "heading_open")%string eqn:E1.
  { apply String.eqb_eq in E1. rewrite E1. simpl.
    destruct (heading_level (tag token)); inversion E; subst; simpl.
    now rewrite app_nil_r. }
  destruct (type token =? "heading_close")%string eqn:E2.
  { apply String.eqb_eq in E2. rewrite E2. inversion E; subst; simpl.
    now rewrite app_nil_r. }
  destruct (type token =? "inline")%string.
  - unfold inline_step in E. apply inline_finish_texts in E.
    rewrite E, run_children_loop, children_loop_texts. simpl.
    now rewrite <- app_assoc.
  - inversion E; subst. now rewrite app_nil_r.
Qed.

Lemma token_loop_texts tokens rest : forall i st st',
  token_loop tokens i rest st = Some st' ->
  inserted_texts (requests st') = inserted_texts (requests st) ++ markup_texts rest.
Proof.
  induction rest as [|token rest IH]; intros i st st' E; simpl in E.
  - inversion E; subst. simpl. now rewrite app_nil_r.
  - destruct (token_step tokens i token st) as [st1|] eqn:E1; [|discriminate].
    apply IH in E. apply token_step_texts in E1.
    rewrite E, E1. unfold markup_texts. simpl. now rewrite <- app_assoc.
Qed.

Lemma formatting_inserts_nothing fs :
  Forall (fun r => is_formatting r = true) fs -> inserted_texts fs = [].
Proof.
  induction 1 as [|r fs Hr _ IH]; simpl; [reflexivity|].
  destruct r; simpl in *; [discriminate|exact IH|exact IH].
Qed.

(** C2. Called with start offset 1 the compiler emits no separator: the
    batch inserts exactly the strings of the markup, and its first request,
    when there is one, is an insertText at offset 1. Called with a start
    offset N > 1, the batch is an insertText of two newlines at N followed by
    the batch of offset 1 with every offset moved by N + 1, that is, laid out
    from N + 2 instead of 1. *)
Theorem separator_only_when_appending
    (md_parse : string -> list Token) (markdown_content : string) :
  heading_tags_ok (md_parse markdown_content) = true ->
  exists batch1,
    markdown_to_docs_requests md_parse markdown_content 1 = Some batch1 /\
    inserted_texts batch1 = markup_texts (md_parse markdown_content) /\
    (forall r rest, batch1 = r :: rest -> exists t, r = insertText 1 t) /\
    forall N, N > 1 ->
      markdown_to_docs_requests md_parse markdown_content N =
      Some (insertText N (LF ++ LF) :: map (shift_request (N + 1)) batch1).
Proof.
  intros Hok. unfold markdown_to_docs_requests.
  destruct (final_state_defined _ 1 Hok) as [st E].
  exists (batch_of st). rewrite E. split; [reflexivity|]. split; [|split].
  - destruct (ordered_inv_final _ _ _ E) as [_ Hf].
    unfold batch_of. rewrite inserted_texts_app.
    rewrite (formatting_inserts_nothing _ Hf), app_nil_r.
    unfold final_state in E. apply token_loop_texts in E. exact E.
  - intros r rest Hb. unfold batch_of in Hb.
    destruct (first_inv_final _ _ E) as [[Hr [Hf _]]|[t [rs' Hr]]];
      rewrite Hr in Hb.
    + rewrite Hf in Hb. discriminate.
    + inversion Hb. eauto.
  - intros N HN. rewrite final_state_relocate, E. simpl.
    rewrite batch_of_relocate. unfold separator, body_start.
    replace (N >? 1) with true by (symmetry; apply Z.gtb_lt; lia).
    replace (N + 2 - 1) with (N + 1) by lia. reflexivity.
Qed.

Lemma separator_only_when_appending_witness :
  exists batch1,
    markdown_to_docs_requests reference_parse title_markdown 1 = Some batch1 /\
    inserted_texts batch1 = markup_texts (reference_parse title_markdown) /\
    (forall r rest, batch1 = r :: rest -> exists t, r = insertText 1 t) /\
    forall N, N > 1 ->
      markdown_to_docs_requests reference_parse title_markdown N =
      Some (insertText N (LF ++ LF) :: map (shift_request (N + 1)) batch1).
Proof. apply separator_only_when_appending. reflexivity. Defined.

(** ** The documents of the specification *)





(** ** Heading tiers *)

Lemma child_step_heading child st :
  current_heading_level (child_step child st) = current_heading_level st.
Proof.
  unfold child_step.
  repeat match goal with
         | |- context [if ?b then _ else _] => destruct b
         end; reflexivity.
Qed.

Lemma children_loop_heading cs : forall st,
  current_heading_level (children_loop cs st) = current_heading_level st.
Proof.
  induction cs as [|c cs IH]; intros st; simpl; [reflexivity|].
  now rewrite IH, child_step_heading.
Qed.

Lemma heading_map_get level :
  (level = 1 -> dict_get heading_map level "NORMAL_TEXT" = "HEADING_1") /\
  (level = 2 -> dict_get heading_map level "NORMAL_TEXT" = "HEADING_2") /\
  (level = 3 -> dict_get heading_map level "NORMAL_TEXT" = "HEADING_3") /\
  (level <> 1 -> level <> 2 -> level <> 3 ->
   dict_get heading_map level "NORMAL_TEXT" = "NORMAL_TEXT").
Proof.
  repeat split; try (intros ->; reflexivity).
  intros H1 H2 H3. unfold heading_map, dict_get.
  destruct (Z.eqb_spec 1 level); [congruence|].
  destruct (Z.eqb_spec 2 level); [congruence|].
  destruct (Z.eqb_spec 3 level); [congruence|reflexivity].
Qed.

(** C8. When a heading level is active and the inline token has produced
    text, the inline branch returns (it does not raise) and records one
    paragraph style over the paragraph: HEADING_1, HEADING_2 or HEADING_3 for
    the levels 1, 2 and 3, and NORMAL_TEXT for every other level. *)
Theorem heading_levels_map_to_tiers
    (tokens : list Token) (i : nat) (token : Token) (st : State) (level : Z) :
  current_heading_level st = Some level ->
  current_index st < current_index (run_children token (reset_flags st)) ->
  exists st' name,
    inline_step tokens i token st = Some st' /\
    formatting_requests st' =
      formatting_requests (run_children token (reset_flags st)) ++
      [updateParagraphStyle (current_index st)
         (current_index (run_children token (reset_flags st)))
         (namedStyleType name) "namedStyleType"] /\
    (level = 1 -> name = "HEADING_1") /\
    (level = 2 -> name = "HEADING_2") /\
    (level = 3 -> name = "HEADING_3") /\
    (level <> 1 -> level <> 2 -> level <> 3 -> name = "NORMAL_TEXT").
Proof.
  intros Hl Hlt. unfold inline_step, inline_finish.
  set (st1 := run_children token (reset_flags st)) in *.
  assert (H1 : current_heading_level st1 = Some level).
  { unfold st1. rewrite run_children_loop, children_loop_heading. exact Hl. }
  replace (current_index st1 >? current_index st) with true
    by (symmetry; apply Z.gtb_lt; lia).
  cbn [current_heading_level]. rewrite H1.
  eexists. exists (dict_get heading_map level "NORMAL_TEXT").
  split; [reflexivity|]. split; [reflexivity|]. apply heading_map_get.
Qed.

Lemma heading_levels_map_to_tiers_witness :
  exists st' name,
    inline_step title_tokens 1 (inline [text_tok "Title"])
      (mkState [] [] 1 (Some 5) false false) = Some st' /\
    formatting_requests st' =
      formatting_requests
        (run_children (inline [text_tok "Title"])
           (reset_flags (mkState [] [] 1 (Some 5) false false))) ++
      [updateParagraphStyle
         (current_index (mkState [] [] 1 (Some 5) false false))
         (current_index
            (run_children (inline [text_tok "Title"])
               (reset_flags (mkState [] [] 1 (Some 5) false false))))
         (namedStyleType name) "namedStyleType"] /\
    (5 = 1 -> name = "HEADING_1") /\
    (5 = 2 -> name = "HEADING_2") /\
    (5 = 3 -> name = "HEADING_3") /\
    (5 <> 1 -> 5 <> 2 -> 5 <> 3 -> name = "NORMAL_TEXT").
Proof.
  apply (heading_levels_map_to_tiers title_tokens 1 (inline [text_tok "Title"])
           (mkState [] [] 1 (Some 5) false false) 5); reflexivity.
Defined.

(** ** Plain paragraphs *)












(** ** Emphasis *)






(** ** Soft breaks *)

Lemma child_step_softbreak sb st :
  type sb = "softbreak"%string ->
  child_step sb st =
  mkState (requests st ++ [insertText (current_index st) SPACE])
          (formatting_requests st) (current_index st + 1)
          (current_heading_level st) (is_bold st) (is_italic st).
Proof. unfold child_step. now intros ->. Qed.

Lemma behind_inv_prelude start_index : holds behind_inv (prelude start_index).
Proof.
  unfold holds, behind_inv, prelude.
  destruct (start_index >? 1); simpl; intros s e ts f [].
Qed.

Section Keeps.

(** The emissions keep [behind_inv], and keep [clear_inv k] together with
    the presence of a given request. *)
Variable k : Z.
Variable x : request.

Lemma behind_insert rs fs c t :
  behind_inv rs fs c -> behind_inv (rs ++ [insertText c t]) fs (c + len t).
Proof.
  unfold behind_inv. intros H s e ts f Hin.
  specialize (H s e ts f Hin). pose proof (len_nonneg t). lia.
Qed.

Lemma behind_styled rs fs c t ts f :
  behind_inv rs fs c -> 0 < len t ->
  behind_inv (rs ++ [insertText c t])
             (fs ++ [updateTextStyle c (c + len t) ts f]) (c + len t).
Proof.
  unfold behind_inv. intros H Hpos s e ts' f' Hin.
  apply in_app_or in Hin. destruct Hin as [Hin|[Heq|[]]].
  - specialize (H s e ts' f' Hin). lia.
  - inversion Heq; subst. lia.
Qed.

Lemma behind_paragraph rs fs c s e ps f :
  behind_inv rs fs c -> rs <> [] -> s < e -> e < c ->
  behind_inv rs (fs ++ [updateParagraphStyle s e ps f]) c.
Proof.
  unfold behind_inv. intros H _ _ _ s' e' ts f' Hin.
  apply in_app_or in Hin. destruct Hin as [Hin|[Heq|[]]].
  - exact (H s' e' ts f' Hin).
  - discriminate.
Qed.

Lemma clear_insert rs fs c t :
  clear_with k x rs fs c -> clear_with k x (rs ++ [insertText c t]) fs (c + len t).
Proof.
  unfold clear_with, clear_inv. intros [[Hk H] Hx].
  pose proof (len_nonneg t). repeat split; [lia|exact H|].
  apply in_or_app. now left.
Qed.

Lemma clear_styled rs fs c t ts f :
  clear_with k x rs fs c -> 0 < len t ->
  clear_with k x (rs ++ [insertText c t])
             (fs ++ [updateTextStyle c (c + len t) ts f]) (c + len t).
Proof.
  unfold clear_with, clear_inv. intros [[Hk H] Hx] Hpos.
  repeat split; [lia| |apply in_or_app; now left].
  intros s e ts' f' Hin.
  apply in_app_or in Hin. destruct Hin as [Hin|[Heq|[]]].
  - exact (H s e ts' f' Hin).
  - inversion Heq; subst. right. exact Hk.
Qed.

Lemma clear_paragraph rs fs c s e ps f :
  clear_with k x rs fs c -> rs <> [] -> s < e -> e < c ->
  clear_with k x rs (fs ++ [updateParagraphStyle s e ps f]) c.
Proof.
  unfold clear_with, clear_inv. intros [[Hk H] Hx] _ _ _.
  repeat split; [exact Hk| |exact Hx].
  intros s' e' ts f' Hin.
  apply in_app_or in Hin. destruct Hin as [Hin|[Heq|[]]].
  - exact (H s' e' ts f' Hin).
  - discriminate.
Qed.

End Keeps.

(** C10. Take any soft break among the children of an inline token of the
    document. At the cursor k the walk has reached there, the soft-break
    branch appends the insertion of one space at k and leaves the style
    operations as they were, whatever the emphasis flags are; that insertion
    is in the returned batch, and no updateTextStyle range of the batch
    contains offset k. *)
Theorem softbreak_space_never_styled
    (md_parse : string -> list Token) (markdown_content : string)
    (start_index : Z) (pre post : list Token) (token : Token)
    (before after : list Token) (sb : Token) :
  heading_tags_ok (md_parse markdown_content) = true ->
  md_parse markdown_content = pre ++ token :: post ->
  type token = "inline"%string ->
  children token = Some (before ++ sb :: after) ->
  type sb = "softbreak"%string ->
  exists st0 batch,
    token_loop (md_parse markdown_content) 0 pre (prelude start_index) = Some st0 /\
    markdown_to_docs_requests md_parse markdown_content start_index = Some batch /\
    (let st1 := children_loop before (reset_flags st0) in
     let k := current_index st1 in
     requests (child_step sb st1) = requests st1 ++ [insertText k SPACE] /\
     formatting_requests (child_step sb st1) = formatting_requests st1 /\
     In (insertText k SPACE) batch /\
     forall s e ts f, In (updateTextStyle s e ts f) batch -> e <= k \/ k < s).
Proof.
  intros Hok Hp Ht Hc Hsb. unfold markdown_to_docs_requests.
  destruct (final_state_defined _ start_index Hok) as [st E].
  rewrite E. unfold final_state in E.
  set (tokens := md_parse markdown_content) in *.
  rewrite Hp in E at 2. rewrite token_loop_app in E.
  destruct (token_loop tokens 0 pre (prelude start_index)) as [st0|] eqn:E0;
    [|discriminate].
  exists st0, (batch_of st). split; [reflexivity|]. split; [reflexivity|].
  cbv zeta.
  set (st1 := children_loop before (reset_flags st0)).
  set (k := current_index st1).
  rewrite (child_step_softbreak sb st1 Hsb).
  split; [reflexivity|]. split; [reflexivity|].
  (* up to the soft break, every style range ends at or before the cursor *)
  assert (B0 : holds behind_inv st0).
  { eapply (token_loop_holds behind_inv);
      [apply behind_insert|apply behind_styled|apply behind_paragraph
      |apply behind_inv_prelude|exact E0]. }
  assert (B1 : holds behind_inv st1).
  { apply (children_loop_holds behind_inv);
      [apply behind_insert|apply behind_styled|exact B0]. }
  (* from the soft break on, the cursor is past k *)
  set (x := insertText k SPACE).
  assert (C2 : holds (clear_with k x) (child_step sb st1)).
  { rewrite (child_step_softbreak sb st1 Hsb).
    unfold holds, clear_with, clear_inv; simpl. fold k. repeat split.
    - lia.
    - intros s e ts f Hin. left. exact (B1 s e ts f Hin).
    - apply in_or_app. right. now left. }
  cbn [token_loop] in E.
  destruct (token_step tokens (0 + List.length pre) token st0) as [st3|] eqn:E3;
    [|discriminate].
  assert (C3 : holds (clear_with k x) st3).
  { unfold token_step in E3. rewrite Ht in E3.
    cbn [String.eqb Ascii.eqb Bool.eqb] in E3.
    unfold inline_step in E3.
    eapply (inline_finish_holds (clear_with k x));
      [apply clear_insert|apply clear_paragraph| |exact E3].
    rewrite run_children_loop. unfold children_of. rewrite Hc.
    rewrite children_loop_app. fold st1. cbn [children_loop fold_left].
    apply (children_loop_holds (clear_with k x));
      [apply clear_insert|apply clear_styled|exact C2]. }
  assert (C : holds (clear_with k x) st).
  { eapply (token_loop_holds (clear_with k x));
      [apply clear_insert|apply clear_styled|apply clear_paragraph
      |exact C3|exact E]. }
  destruct C as [[_ Hclear] Hx]. unfold batch_of. split.
  - apply in_or_app. now left.
  - intros s e ts f Hin. apply in_app_or in Hin. destruct Hin as [Hin|Hin].
    + assert (Ef : final_state tokens start_index = Some st).
      { unfold final_state. rewrite Hp at 2.
        rewrite token_loop_app, E0. cbn [token_loop]. now rewrite E3. }
      destruct (ordered_inv_final tokens start_index st Ef) as [Hr _].
      rewrite Forall_forall in Hr. apply Hr in Hin. discriminate.
    + exact (Hclear s e ts f Hin).
Qed.

Lemma softbreak_space_never_styled_witness :
  exists st0 batch,
    token_loop (reference_parse bold_break_markdown) 0 [paragraph_open]
               (prelude 1) = Some st0 /\
    markdown_to_docs_requests reference_parse bold_break_markdown 1 =
      Some batch /\
    (let st1 := children_loop [text_tok ""; strong_open; text_tok "one"]
                  (reset_flags st0) in
     let k := current_index st1 in
     requests (child_step softbreak st1) = requests st1 ++ [insertText k SPACE] /\
     formatting_requests (child_step softbreak st1) = formatting_requests st1 /\
     In (insertText k SPACE) batch /\
     forall s e ts f, In (updateTextStyle s e ts f) batch -> e <= k \/ k < s).
Proof.
  apply (softbreak_space_never_styled reference_parse bold_break_markdown 1
           [paragraph_open] [paragraph_close]
           (inline [text_tok ""; strong_open; text_tok "one"; softbreak;
                    text_tok "two"; strong_close; text_tok ""])
           [text_tok ""; strong_open; text_tok "one"]
           [text_tok "two"; strong_close; text_tok ""] softbreak);
    reflexivity.
Defined.

(** ** Invariants that follow the paragraph structure

    [P] holds between inline tokens, [Q ps] inside an inline token whose
    paragraph started at cursor [ps]. *)
Section Paragraphs.

Variable P : list request -> list request -> Z -> Prop.
Variable Q : Z -> list request -> list request -> Z -> Prop.

Hypothesis PQ_enter : forall rs fs c, P rs fs c -> Q c rs fs c.

Hypothesis Q_insert : forall ps rs fs c t,
  Q ps rs fs c -> 0 < len t -> Q ps (rs ++ [insertText c t]) fs (c + len t).

Hypothesis Q_styled : forall ps rs fs c t b i,
  Q ps rs fs c -> 0 < len t -> b || i = true ->
  Q ps (rs ++ [insertText c t])
    (fs ++ [updateTextStyle c (c + len t) (mkTextStyle b i) (style_fields b i)])
    (c + len t).

Hypothesis QP_plain : forall ps rs fs c,
  Q ps rs fs c -> P (rs ++ [insertText c LF]) fs (c + 1).

Hypothesis QP_heading : forall ps rs fs c level,
  Q ps rs fs c -> ps < c ->
  P (rs ++ [insertText c LF])
    (fs ++ [updateParagraphStyle ps c
              (namedStyleType (dict_get heading_map level "NORMAL_TEXT"))
              "namedStyleType"])
    (c + 1).

Hypothesis QP_spaced : forall ps rs fs c,
  Q ps rs fs c -> ps < c ->
  P (rs ++ [insertText c LF])
    (fs ++ [updateParagraphStyle ps c (spaceBelow 10 "PT") "spaceBelow"])
    (c + 1).

Lemma child_step_within ps child st :
  state_in Q ps st -> state_in Q ps (child_step child st).
Proof.
  unfold state_in, child_step. intros H.
  destruct (type child =? "strong_open")%string; [exact H|].
  destruct (type child =? "strong_close")%string; [exact H|].
  destruct (type child =? "em_open")%string; [exact H|].
  destruct (type child =? "em_close")%string; [exact H|].
  destruct (type child =? "softbreak")%string.
  { simpl. rewrite <- len_SPACE. apply Q_insert; [exact H|reflexivity]. }
  destruct ((type child =? "text")%string && negb (content child =? "")%string)
    eqn:Et; [|exact H].
  apply andb_prop in Et. destruct Et as [_ Hne].
  assert (Hpos : 0 < len (content child)).
  { apply len_pos. now destruct (content child =? "")%string. }
  simpl. destruct (is_bold st || is_italic st) eqn:Ef.
  - now apply Q_styled.
  - now apply Q_insert.
Qed.

Lemma children_loop_within ps cs : forall st,
  state_in Q ps st -> state_in Q ps (children_loop cs st).
Proof.
  induction cs as [|c cs IH]; intros st H; simpl; [exact H|].
  apply IH. now apply child_step_within.
Qed.

Lemma inline_finish_between tokens i ps st1 st' :
  state_in Q ps st1 -> inline_finish tokens i ps st1 = Some st' -> holds P st'.
Proof.
  unfold state_in, holds, inline_finish. intros H E. simpl in E.
  destruct (current_index st1 >? ps) eqn:Hgt.
  - apply Z.gtb_lt in Hgt.
    destruct (current_heading_level st1).
    + inversion E; subst; simpl. now apply QP_heading.
    + destruct (after_paragraph_open tokens i) as [[|]|]; inversion E; subst;
        simpl; [now apply QP_spaced|now apply (QP_plain ps)].
  - inversion E; subst; simpl. now apply (QP_plain ps).
Qed.

Lemma token_step_between tokens i token st st' :
  holds P st -> token_step tokens i token st = Some st' -> holds P st'.
Proof.
  unfold token_step. intros H E.
  destruct (type token =? "heading_open")%string.
  { destruct (heading_level (tag token)); inversion E; subst. exact H. }
  destruct (type token =? "heading_close")%string.
  { inversion E; subst. exact H. }
  destruct (type token =? "inline")%string.
  - unfold inline_step in E.
    eapply inline_finish_between; [|exact E].
    rewrite run_children_loop. apply children_loop_within.
    apply PQ_enter. exact H.
  - inversion E; subst. exact H.
Qed.

Lemma token_loop_between tokens rest : forall i st st',
  holds P st -> token_loop tokens i rest st = Some st' -> holds P st'.
Proof.
  induction rest as [|token rest IH]; intros i st st' H E; simpl in E.
  - inversion E; subst. exact H.
  - destruct (token_step tokens i token st) as [st1|] eqn:E1; [|discriminate].
    eapply IH; [|exact E]. eapply token_step_between; eassumption.
Qed.

End Paragraphs.

(** ** Positions in a batch *)

Lemma nth_error_snoc {A : Type} (l : list A) (x y : A) (k : nat) :
  nth_error (l ++ [x]) k = Some y ->
  ((k < List.length l)%nat /\ nth_error l k = Some y) \/
  (k = List.length l /\ y = x).
Proof.
  intros E. destruct (Nat.lt_ge_cases k (List.length l)) as [Hlt|Hge].
  - left. split; [exact Hlt|]. now rewrite nth_error_app1 in E.
  - right. rewrite nth_error_app2 in E by exact Hge.
    destruct (k - List.length l)%nat as [|m] eqn:Ek; simpl in E.
    + split; [lia|congruence].
    + destruct m; discriminate.
Qed.

Lemma firstn_snoc_lt {A : Type} (l : list A) (x : A) (k : nat) :
  (k <= List.length l)%nat -> firstn k (l ++ [x]) = firstn k l.
Proof.
  intros H. rewrite firstn_app.
  replace (k - List.length l)%nat with 0%nat by lia.
  simpl. now rewrite app_nil_r.
Qed.

(** ** The insertions tile the document *)

Lemma contiguous_snoc start rs fs c t :
  contiguous_inv start rs fs c ->
  forall fs', contiguous_inv start (rs ++ [insertText c t]) fs' (c + len t).
Proof.
  unfold contiguous_inv. intros [Hc H] fs'. split.
  - rewrite inserted_length_app, inserted_length_insert. lia.
  - intros k i u E. apply nth_error_snoc in E.
    destruct E as [[Hlt E]|[-> E]].
    + rewrite firstn_snoc_lt by lia. exact (H k i u E).
    + inversion E; subst. rewrite firstn_snoc_lt by lia.
      now rewrite firstn_all.
Qed.

Lemma contiguous_inv_prelude start_index :
  holds (contiguous_inv start_index) (prelude start_index).
Proof.
  unfold holds, contiguous_inv, prelude.
  destruct (start_index >? 1); cbn -[Z.add Z.sub nth_error firstn]; split.
  - unfold inserted_length; cbn -[Z.add]. lia.
  - intros [|[|k]] i t E; simpl in E; inversion E; subst.
    unfold inserted_length; simpl. lia.
  - unfold inserted_length; simpl. lia.
  - intros [|k] i t E; discriminate.
Qed.

Lemma contiguous_inv_final tokens start_index st :
  final_state tokens start_index = Some st ->
  holds (contiguous_inv start_index) st.
Proof.
  unfold final_state. intros E.
  eapply (token_loop_holds (contiguous_inv start_index));
    [| | |apply contiguous_inv_prelude|exact E].
  - intros rs fs c t H. now apply (contiguous_snoc _ _ fs).
  - intros rs fs c t ts f H _. now apply (contiguous_snoc _ _ fs).
  - intros rs fs c s e ps f H _ _ _. exact H.
Qed.

(** X1. Each insertText request of the batch is placed exactly where the
    insertions before it end: its index is the start offset plus the number
    of characters the earlier requests of the batch insert. *)
Theorem insertions_are_contiguous
    (md_parse : string -> list Token) (markdown_content : string)
    (start_index : Z) :
  heading_tags_ok (md_parse markdown_content) = true ->
  exists batch,
    markdown_to_docs_requests md_parse markdown_content start_index = Some batch /\
    forall k i t,
      nth_error batch k = Some (insertText i t) ->
      i = start_index + inserted_length (firstn k batch).
Proof.
  intros Hok. unfold markdown_to_docs_requests.
  destruct (final_state_defined _ start_index Hok) as [st E].
  rewrite E. exists (batch_of st). split; [reflexivity|].
  destruct (ordered_inv_final _ _ _ E) as [Hr Hf].
  destruct (contiguous_inv_final _ _ _ E) as [_ Hc].
  unfold batch_of. intros k i t Ek.
  destruct (insert_position _ _ _ _ Hr Hf Ek) as [Lk _].
  specialize (Lk eq_refl).
  rewrite nth_error_app1 in Ek by exact Lk.
  rewrite firstn_app.
  replace (k - List.length (requests st))%nat with 0%nat by lia.
  simpl. rewrite app_nil_r. exact (Hc k i t Ek).
Qed.

Lemma insertions_are_contiguous_witness :
  exists batch,
    markdown_to_docs_requests reference_parse bold_break_markdown 12 = Some batch /\
    forall k i t,
      nth_error batch k = Some (insertText i t) ->
      i = 12 + inserted_length (firstn k batch).
Proof. apply insertions_are_contiguous. reflexivity. Defined.

(** ** Where the formatting requests sit in a batch *)

Lemma formatting_position (st : State) (k : nat) (r : request) :
  holds ordered_inv st ->
  nth_error (batch_of st) k = Some r -> is_formatting r = true ->
  (List.length (requests st) <= k)%nat /\
  nth_error (formatting_requests st) (k - List.length (requests st)) = Some r.
Proof.
  intros [Hr Hf] E F. unfold batch_of in E.
  destruct (insert_position _ _ _ _ Hr Hf E) as [_ L]. specialize (L F).
  split; [exact L|]. now rewrite nth_error_app2 in E.
Qed.

Lemma formatting_member (st : State) (r : request) :
  holds ordered_inv st ->
  In r (batch_of st) -> is_formatting r = true ->
  In r (formatting_requests st).
Proof.
  intros [Hr _] Hin F. unfold batch_of in Hin.
  apply in_app_or in Hin. destruct Hin as [Hin|Hin]; [|exact Hin].
  rewrite Forall_forall in Hr. apply Hr in Hin.
  destruct r; simpl in *; discriminate.
Qed.

(** ** Style ranges do not overlap *)

Lemma style_order_inv_final tokens start_index st :
  final_state tokens start_index = Some st -> holds style_order_inv st.
Proof.
  unfold final_state. intros E.
  eapply (token_loop_holds style_order_inv); [| | | |exact E];
    unfold style_order_inv.
  - intros rs fs c t [Hb Ho]. split; [|exact Ho].
    intros s e ts f Hin. specialize (Hb s e ts f Hin).
    pose proof (len_nonneg t). lia.
  - intros rs fs c t ts f [Hb Ho] Hpos. split.
    + intros s e ts' f' Hin. apply in_app_or in Hin.
      destruct Hin as [Hin|[Heq|[]]].
      * specialize (Hb s e ts' f' Hin). lia.
      * inversion Heq; subst. lia.
    + intros j k s1 e1 ts1 f1 s2 e2 ts2 f2 Hjk Ej Ek.
      apply nth_error_snoc in Ek. destruct Ek as [[Hk Ek]|[Hk Ek]].
      * rewrite nth_error_app1 in Ej by lia. exact (Ho _ _ _ _ _ _ _ _ _ _ Hjk Ej Ek).
      * inversion Ek; subst. rewrite nth_error_app1 in Ej by lia.
        apply nth_error_In in Ej. exact (Hb _ _ _ _ Ej).
  - intros rs fs c s e ps f [Hb Ho] _ _ _. split.
    + intros s' e' ts f' Hin. apply in_app_or in Hin.
      destruct Hin as [Hin|[Heq|[]]]; [exact (Hb _ _ _ _ Hin)|discriminate].
    + intros j k s1 e1 ts1 f1 s2 e2 ts2 f2 Hjk Ej Ek.
      apply nth_error_snoc in Ek. destruct Ek as [[Hk Ek]|[Hk Ek]];
        [|discriminate].
      rewrite nth_error_app1 in Ej by lia. exact (Ho _ _ _ _ _ _ _ _ _ _ Hjk Ej Ek).
  - unfold holds, prelude. destruct (start_index >? 1); simpl; split.
    + intros s e ts f [].
    + intros j k s1 e1 ts1 f1 s2 e2 ts2 f2 _ Ej. now destruct j.
    + intros s e ts f [].
    + intros j k s1 e1 ts1 f1 s2 e2 ts2 f2 _ Ej. now destruct j.
Qed.

(** X2. The updateTextStyle ranges of a batch never overlap: of any two,
    the one that comes first in the batch ends at or before the start of the
    other. *)
Theorem style_ranges_disjoint_increasing
    (md_parse : string -> list Token) (markdown_content : string)
    (start_index : Z) :
  heading_tags_ok (md_parse markdown_content) = true ->
  exists batch,
    markdown_to_docs_requests md_parse markdown_content start_index = Some batch /\
    forall j k s1 e1 ts1 f1 s2 e2 ts2 f2,
      (j < k)%nat ->
      nth_error batch j = Some (updateTextStyle s1 e1 ts1 f1) ->
      nth_error batch k = Some (updateTextStyle s2 e2 ts2 f2) ->
      e1 <= s2.
Proof.
  intros Hok. unfold markdown_to_docs_requests.
  destruct (final_state_defined _ start_index Hok) as [st E].
  rewrite E. exists (batch_of st). split; [reflexivity|].
  pose proof (ordered_inv_final _ _ _ E) as Ho.
  destruct (style_order_inv_final _ _ _ E) as [_ Hs].
  intros j k s1 e1 ts1 f1 s2 e2 ts2 f2 Hjk Ej Ek.
  destruct (formatting_position st j _ Ho Ej eq_refl) as [Lj Ej'].
  destruct (formatting_position st k _ Ho Ek eq_refl) as [Lk Ek'].
  refine (Hs _ _ _ _ _ _ _ _ _ _ _ Ej' Ek'). lia.
Qed.

Lemma style_ranges_disjoint_increasing_witness :
  exists batch,
    markdown_to_docs_requests reference_parse bold_bold_markdown 3 = Some batch /\
    forall j k s1 e1 ts1 f1 s2 e2 ts2 f2,
      (j < k)%nat ->
      nth_error batch j = Some (updateTextStyle s1 e1 ts1 f1) ->
      nth_error batch k = Some (updateTextStyle s2 e2 ts2 f2) ->
      e1 <= s2.
Proof. apply style_ranges_disjoint_increasing. reflexivity. Defined.

(** ** Paragraph ranges do not overlap *)

Lemma paragraph_order_weaken b b' fs :
  b <= b' -> paragraph_order b fs -> paragraph_order b' fs.
Proof.
  unfold paragraph_order. intros Hb [He Ho]. split; [|exact Ho].
  intros s e ps f Hin. specialize (He s e ps f Hin). lia.
Qed.

Lemma paragraph_order_snoc_style b fs s e ts f :
  paragraph_order b fs -> paragraph_order b (fs ++ [updateTextStyle s e ts f]).
Proof.
  unfold paragraph_order. intros [He Ho]. split.
  - intros s' e' ps f' Hin. apply in_app_or in Hin.
    destruct Hin as [Hin|[Heq|[]]]; [exact (He _ _ _ _ Hin)|discriminate].
  - intros j k s1 e1 ps1 f1 s2 e2 ps2 f2 Hjk Ej Ek.
    apply nth_error_snoc in Ek. destruct Ek as [[Hk Ek]|[Hk Ek]];
      [|discriminate].
    rewrite nth_error_app1 in Ej by lia. exact (Ho _ _ _ _ _ _ _ _ _ _ Hjk Ej Ek).
Qed.

Lemma paragraph_order_snoc ps c fs sty f :
  paragraph_order ps fs -> ps < c ->
  paragraph_order (c + 1) (fs ++ [updateParagraphStyle ps c sty f]).
Proof.
  unfold paragraph_order. intros [He Ho] Hlt. split.
  - intros s' e' ps' f' Hin. apply in_app_or in Hin.
    destruct Hin as [Hin|[Heq|[]]].
    + specialize (He _ _ _ _ Hin). lia.
    + inversion Heq; subst. lia.
  - intros j k s1 e1 ps1 f1 s2 e2 ps2 f2 Hjk Ej Ek.
    apply nth_error_snoc in Ek. destruct Ek as [[Hk Ek]|[Hk Ek]].
    + rewrite nth_error_app1 in Ej by lia. exact (Ho _ _ _ _ _ _ _ _ _ _ Hjk Ej Ek).
    + inversion Ek; subst. rewrite nth_error_app1 in Ej by lia.
      apply nth_error_In in Ej. exact (He _ _ _ _ Ej).
Qed.

Lemma paragraph_order_inv_final tokens start_index st :
  final_state tokens start_index = Some st -> holds paragraph_order_inv st.
Proof.
  unfold final_state. intros E.
  eapply (token_loop_between paragraph_order_inv paragraph_order_in);
    [| | | | | | |exact E];
    unfold paragraph_order_inv, paragraph_order_in.
  - intros rs fs c H. split; [lia|exact H].
  - intros ps rs fs c t [Hle H] Hpos. split; [lia|exact H].
  - intros ps rs fs c t b i [Hle H] Hpos _. split; [lia|].
    now apply paragraph_order_snoc_style.
  - intros ps rs fs c [Hle H]. apply (paragraph_order_weaken ps); [lia|exact H].
  - intros ps rs fs c level [Hle H] Hlt. now apply paragraph_order_snoc.
  - intros ps rs fs c [Hle H] Hlt. now apply paragraph_order_snoc.
  - unfold holds, prelude, paragraph_order.
    destruct (start_index >? 1); simpl; split.
    + intros s e ps f [].
    + intros j k s1 e1 ps1 f1 s2 e2 ps2 f2 _ Ej. now destruct j.
    + intros s e ps f [].
    + intros j k s1 e1 ps1 f1 s2 e2 ps2 f2 _ Ej. now destruct j.
Qed.

(** X3. The updateParagraphStyle ranges of a batch never overlap nor touch:
    of any two, the one that comes first in the batch ends strictly before
    the start of the other (the paragraph's newline lies between them). *)
Theorem paragraph_ranges_disjoint_increasing
    (md_parse : string -> list Token) (markdown_content : string)
    (start_index : Z) :
  heading_tags_ok (md_parse markdown_content) = true ->
  exists batch,
    markdown_to_docs_requests md_parse markdown_content start_index = Some batch /\
    forall j k s1 e1 ps1 f1 s2 e2 ps2 f2,
      (j < k)%nat ->
      nth_error batch j = Some (updateParagraphStyle s1 e1 ps1 f1) ->
      nth_error batch k = Some (updateParagraphStyle s2 e2 ps2 f2) ->
      e1 < s2.
Proof.
  intros Hok. unfold markdown_to_docs_requests.
  destruct (final_state_defined _ start_index Hok) as [st E].
  rewrite E. exists (batch_of st). split; [reflexivity|].
  pose proof (ordered_inv_final _ _ _ E) as Ho.
  destruct (paragraph_order_inv_final _ _ _ E) as [_ Hs].
  intros j k s1 e1 ps1 f1 s2 e2 ps2 f2 Hjk Ej Ek.
  destruct (formatting_position st j _ Ho Ej eq_refl) as [Lj Ej'].
  destruct (formatting_position st k _ Ho Ek eq_refl) as [Lk Ek'].
  refine (Hs _ _ _ _ _ _ _ _ _ _ _ Ej' Ek'). lia.
Qed.

Lemma paragraph_ranges_disjoint_increasing_witness :
  exists batch,
    markdown_to_docs_requests reference_parse a_b_markdown 1 = Some batch /\
    forall j k s1 e1 ps1 f1 s2 e2 ps2 f2,
      (j < k)%nat ->
      nth_error batch j = Some (updateParagraphStyle s1 e1 ps1 f1) ->
      nth_error batch k = Some (updateParagraphStyle s2 e2 ps2 f2) ->
      e1 < s2.
Proof. apply paragraph_ranges_disjoint_increasing. reflexivity. Defined.

(** ** What a style range carries *)

Lemma style_fields_cases b i :
  b || i = true ->
  (mkTextStyle b i = mkTextStyle true false /\ style_fields b i = "bold"%string) \/
  (mkTextStyle b i = mkTextStyle false true /\ style_fields b i = "italic"%string) \/
  (mkTextStyle b i = mkTextStyle true true /\
   style_fields b i = "bold,italic"%string).
Proof. destruct b, i; simpl; intros H; try discriminate; auto. Qed.

Lemma style_kind_inv_final tokens start_index st :
  final_state tokens start_index = Some st -> holds style_kind_inv st.
Proof.
  unfold final_state. intros E.
  eapply (token_loop_between style_kind_inv style_kind_in);
    [| | | | | | |exact E]; unfold style_kind_in, style_kind_inv.
  - intros rs fs c H. exact H.
  - intros ps rs fs c t H _. exact H.
  - intros ps rs fs c t b i H _ Hbi s e ts f Hin.
    apply in_app_or in Hin. destruct Hin as [Hin|[Heq|[]]].
    + exact (H _ _ _ _ Hin).
    + inversion Heq; subst. now apply style_fields_cases.
  - intros ps rs fs c H. exact H.
  - intros ps rs fs c level H _ s e ts f Hin.
    apply in_app_or in Hin.
    destruct Hin as [Hin|[Heq|[]]]; [exact (H _ _ _ _ Hin)|discriminate].
  - intros ps rs fs c H _ s e ts f Hin.
    apply in_app_or in Hin.
    destruct Hin as [Hin|[Heq|[]]]; [exact (H _ _ _ _ Hin)|discriminate].
  - unfold holds, prelude. destruct (start_index >? 1); intros s e ts f [].
Qed.

(** X4. Every updateTextStyle request of a batch sets bold, italic or both,
    never neither, and its field mask names exactly what it sets: bold with
    the mask bold, italic with the mask italic, both with the mask
    bold,italic. *)
Theorem style_requests_name_their_fields
    (md_parse : string -> list Token) (markdown_content : string)
    (start_index : Z) :
  heading_tags_ok (md_parse markdown_content) = true ->
  exists batch,
    markdown_to_docs_requests md_parse markdown_content start_index = Some batch /\
    forall s e ts f, In (updateTextStyle s e ts f) batch ->
      (ts = mkTextStyle true false /\ f = "bold"%string) \/
      (ts = mkTextStyle false true /\ f = "italic"%string) \/
      (ts = mkTextStyle true true /\ f = "bold,italic"%string).
Proof.
  intros Hok. unfold markdown_to_docs_requests.
  destruct (final_state_defined _ start_index Hok) as [st E].
  rewrite E. exists (batch_of st). split; [reflexivity|].
  pose proof (ordered_inv_final _ _ _ E) as Ho.
  pose proof (style_kind_inv_final _ _ _ E) as Hs.
  intros s e ts f Hin.
  exact (Hs _ _ _ _ (formatting_member st _ Ho Hin eq_refl)).
Qed.

Lemma style_requests_name_their_fields_witness :
  exists batch,
    markdown_to_docs_requests reference_parse bold_break_markdown 1 = Some batch /\
    forall s e ts f, In (updateTextStyle s e ts f) batch ->
      (ts = mkTextStyle true false /\ f = "bold"%string) \/
      (ts = mkTextStyle false true /\ f = "italic"%string) \/
      (ts = mkTextStyle true true /\ f = "bold,italic"%string).
Proof. apply style_requests_name_their_fields. reflexivity. Defined.

(** ** Where a paragraph range starts and ends *)

Lemma heading_map_names level :
  In (dict_get heading_map level "NORMAL_TEXT")
     ["HEADING_1"; "HEADING_2"; "HEADING_3"; "NORMAL_TEXT"]%string.
Proof.
  unfold heading_map, dict_get.
  destruct (1 =? level); [simpl; auto|].
  destruct (2 =? level); [simpl; auto|].
  destruct (3 =? level); simpl; auto.
Qed.

Lemma paragraph_anchor_grow rs fs c x :
  paragraph_anchor_inv rs fs c ->
  forall c', paragraph_anchor_inv (rs ++ [x]) fs c'.
Proof.
  unfold paragraph_anchor_inv. intros H c' s e sty f Hin.
  destruct (H s e sty f Hin) as [Hlt [[t [Ht Hpos]] [Hnl Hk]]].
  split; [exact Hlt|]. split; [|split; [|exact Hk]].
  - exists t. split; [|exact Hpos]. apply in_or_app. now left.
  - apply in_or_app. now left.
Qed.

Lemma paragraph_anchor_style rs fs c s e ts f :
  paragraph_anchor_inv rs fs c ->
  paragraph_anchor_inv rs (fs ++ [updateTextStyle s e ts f]) c.
Proof.
  unfold paragraph_anchor_inv. intros H s' e' sty f' Hin.
  apply in_app_or in Hin.
  destruct Hin as [Hin|[Heq|[]]]; [exact (H _ _ _ _ Hin)|discriminate].
Qed.

Lemma paragraph_anchor_in_insert ps rs fs c t :
  paragraph_anchor_in ps rs fs c -> 0 < len t ->
  paragraph_anchor_in ps (rs ++ [insertText c t]) fs (c + len t).
Proof.
  unfold paragraph_anchor_in. intros [H [Hle Hs]] Hpos.
  split; [now apply (paragraph_anchor_grow rs fs c)|]. split; [lia|].
  intros _. destruct (Z.eq_dec ps c) as [->|Hne].
  - exists t. split; [|exact Hpos]. apply in_or_app. right. now left.
  - destruct Hs as [u [Hu Hupos]]; [lia|].
    exists u. split; [|exact Hupos]. apply in_or_app. now left.
Qed.

Lemma paragraph_anchor_close ps rs fs c sty f :
  paragraph_anchor_in ps rs fs c -> ps < c ->
  (sty = spaceBelow 10 "PT" /\ f = "spaceBelow"%string) \/
  (exists name, sty = namedStyleType name /\ f = "namedStyleType"%string /\
     In name ["HEADING_1"; "HEADING_2"; "HEADING_3"; "NORMAL_TEXT"]%string) ->
  paragraph_anchor_inv (rs ++ [insertText c LF])
    (fs ++ [updateParagraphStyle ps c sty f]) (c + 1).
Proof.
  unfold paragraph_anchor_in. intros [H [Hle Hs]] Hlt Hk s e sty' f' Hin.
  apply in_app_or in Hin. destruct Hin as [Hin|[Heq|[]]].
  - exact (paragraph_anchor_grow rs fs c _ H (c + 1) s e sty' f' Hin).
  - inversion Heq; subst. split; [exact Hlt|].
    split; [|split; [|exact Hk]].
    + destruct (Hs Hlt) as [t [Ht Hpos]].
      exists t. split; [|exact Hpos]. apply in_or_app. now left.
    + apply in_or_app. right. now left.
Qed.

Lemma paragraph_anchor_inv_final tokens start_index st :
  final_state tokens start_index = Some st -> holds paragraph_anchor_inv st.
Proof.
  unfold final_state. intros E.
  eapply (token_loop_between paragraph_anchor_inv paragraph_anchor_in);
    [| | | | | | |exact E].
  - intros rs fs c H. unfold paragraph_anchor_in.
    split; [exact H|]. split; lia.
  - intros ps rs fs c t H Hpos. now apply paragraph_anchor_in_insert.
  - intros ps rs fs c t b i H Hpos _.
    destruct (paragraph_anchor_in_insert ps rs fs c t H Hpos) as [H1 H2].
    split; [|exact H2]. now apply paragraph_anchor_style.
  - intros ps rs fs c [H _].
    now apply (paragraph_anchor_grow rs fs c).
  - intros ps rs fs c level H Hlt.
    apply (paragraph_anchor_close ps); [exact H|exact Hlt|].
    right. eexists. split; [reflexivity|]. split; [reflexivity|].
    apply heading_map_names.
  - intros ps rs fs c H Hlt.
    apply (paragraph_anchor_close ps); [exact H|exact Hlt|]. now left.
  - unfold holds, prelude, paragraph_anchor_inv.
    destruct (start_index >? 1); intros s e sty f [].
Qed.

(** X5. Every updateParagraphStyle request of a batch covers a non-empty
    range that starts where a non-empty insertText of the batch starts and
    ends exactly where a newline is inserted, and it is either the fixed
    spaceBelow of 10 PT or a named style among HEADING_1, HEADING_2,
    HEADING_3 and NORMAL_TEXT. *)
Theorem paragraph_ranges_are_anchored
    (md_parse : string -> list Token) (markdown_content : string)
    (start_index : Z) :
  heading_tags_ok (md_parse markdown_content) = true ->
  exists batch,
    markdown_to_docs_requests md_parse markdown_content start_index = Some batch /\
    forall s e sty f, In (updateParagraphStyle s e sty f) batch ->
      s < e /\
      (exists t, In (insertText s t) batch /\ 0 < len t) /\
      In (insertText e LF) batch /\
      ((sty = spaceBelow 10 "PT" /\ f = "spaceBelow"%string) \/
       (exists name, sty = namedStyleType name /\ f = "namedStyleType"%string /\
          In name ["HEADING_1"; "HEADING_2"; "HEADING_3"; "NORMAL_TEXT"]%string)).
Proof.
  intros Hok. unfold markdown_to_docs_requests.
  destruct (final_state_defined _ start_index Hok) as [st E].
  rewrite E. exists (batch_of st). split; [reflexivity|].
  pose proof (ordered_inv_final _ _ _ E) as Ho.
  pose proof (paragraph_anchor_inv_final _ _ _ E) as Hs.
  intros s e sty f Hin.
  destruct (Hs _ _ _ _ (formatting_member st _ Ho Hin eq_refl))
    as [Hlt [[t [Ht Hpos]] [Hnl Hk]]].
  unfold batch_of. split; [exact Hlt|]. split; [|split; [|exact Hk]].
  - exists t. split; [|exact Hpos]. apply in_or_app. now left.
  - apply in_or_app. now left.
Qed.

Lemma paragraph_ranges_are_anchored_witness :
  exists batch,
    markdown_to_docs_requests reference_parse title_markdown 8 = Some batch /\
    forall s e sty f, In (updateParagraphStyle s e sty f) batch ->
      s < e /\
      (exists t, In (insertText s t) batch /\ 0 < len t) /\
      In (insertText e LF) batch /\
      ((sty = spaceBelow 10 "PT" /\ f = "spaceBelow"%string) \/
       (exists name, sty = namedStyleType name /\ f = "namedStyleType"%string /\
          In name ["HEADING_1"; "HEADING_2"; "HEADING_3"; "NORMAL_TEXT"]%string)).
Proof. apply paragraph_ranges_are_anchored. reflexivity. Defined.

(** ** Children and tokens the walk passes over *)

Lemma child_step_passes child st :
  acts child = false -> child_step child st = st.
Proof.
  unfold acts, child_step. intros H.
  repeat (apply orb_false_iff in H; destruct H as [H ?]).
  repeat match goal with
         | E : _ = false |- _ => rewrite E; clear E
         end.
  reflexivity.
Qed.

Lemma children_loop_acts cs : forall st,
  children_loop (filter acts cs) st = children_loop cs st.
Proof.
  induction cs as [|c cs IH]; intros st; simpl; [reflexivity|].
  destruct (acts c) eqn:E; simpl.
  - apply IH.
  - rewrite (child_step_passes c st E). apply IH.
Qed.

Lemma run_children_prune token st :
  run_children (prune token) st = run_children token st.
Proof.
  rewrite !run_children_loop. unfold children_of, prune; simpl.
  destruct (children token) as [cs|]; simpl; [apply children_loop_acts|reflexivity].
Qed.

Lemma after_paragraph_open_prune tokens i :
  after_paragraph_open (map prune tokens) i = after_paragraph_open tokens i.
Proof.
  unfold after_paragraph_open. destruct i as [|j]; [reflexivity|].
  rewrite nth_error_map. now destruct (nth_error tokens j).
Qed.

Lemma token_step_prune tokens i token st :
  token_step (map prune tokens) i (prune token) st = token_step tokens i token st.
Proof.
  unfold token_step, inline_step, inline_finish.
  rewrite run_children_prune, after_paragraph_open_prune. reflexivity.
Qed.

Lemma token_loop_prune tokens rest : forall i st,
  token_loop (map prune tokens) i (map prune rest) st = token_loop tokens i rest st.
Proof.
  induction rest as [|token rest IH]; intros i st; simpl; [reflexivity|].
  rewrite token_step_prune.
  destruct (token_step tokens i token st); [apply IH|reflexivity].
Qed.

(** X6. Children of an inline token that are neither emphasis markers, soft
    breaks nor text with content (inline code, links, images, hard breaks)
    contribute nothing: removing them from every token of the stream leaves
    the result of the compiler unchanged, whatever their content. *)
Theorem unhandled_children_are_dropped
    (md_parse : string -> list Token) (markdown_content : string)
    (start_index : Z) :
  markdown_to_docs_requests (fun s => map prune (md_parse s)) markdown_content
    start_index =
  markdown_to_docs_requests md_parse markdown_content start_index.
Proof.
  unfold markdown_to_docs_requests, final_state.
  now rewrite token_loop_prune.
Qed.

Lemma token_step_not_inline tokens i token st st' :
  (type token =? "inline")%string = false ->
  token_step tokens i token st = Some st' ->
  requests st' = requests st /\
  formatting_requests st' = formatting_requests st.
Proof.
  unfold token_step. intros Hn E. rewrite Hn in E.
  destruct (type token =? "heading_open")%string.
  { destruct (heading_level (tag token)); inversion E; subst. now split. }
  destruct (type token =? "heading_close")%string; inversion E; subst; now split.
Qed.

Lemma token_loop_no_inline tokens rest : forall i st st',
  no_inline rest = true ->
  token_loop tokens i rest st = Some st' ->
  requests st' = requests st /\
  formatting_requests st' = formatting_requests st.
Proof.
  induction rest as [|token rest IH]; intros i st st' Hn E; simpl in *.
  - inversion E; subst. now split.
  - apply andb_prop in Hn. destruct Hn as [Ht Hr].
    apply negb_true_iff in Ht.
    destruct (token_step tokens i token st) as [st1|] eqn:E1; [|discriminate].
    destruct (token_step_not_inline _ _ _ _ _ Ht E1) as [R1 F1].
    destruct (IH _ _ _ Hr E) as [R2 F2]. split; congruence.
Qed.

Lemma compile_no_inline md_parse markdown_content start_index :
  heading_tags_ok (md_parse markdown_content) = true ->
  no_inline (md_parse markdown_content) = true ->
  markdown_to_docs_requests md_parse markdown_content start_index =
    Some (separator start_index).
Proof.
  intros Hok Hn. unfold markdown_to_docs_requests.
  destruct (final_state_defined _ start_index Hok) as [st E].
  rewrite E. simpl. f_equal.
  unfold final_state in E.
  destruct (token_loop_no_inline _ _ _ _ _ Hn E) as [R F].
  unfold batch_of. rewrite R, F. unfold prelude, separator.
  destruct (start_index >? 1); reflexivity.
Qed.

(** X7. A document whose token stream holds no inline token (fenced code,
    rules, HTML blocks only) compiles to the separator alone: the empty
    batch for a start offset of 1 or less, the single two-newline insertion
    above 1. The content of such blocks is never inserted. *)
Theorem blocks_without_inline_are_dropped
    (md_parse : string -> list Token) (markdown_content : string)
    (start_index : Z) :
  heading_tags_ok (md_parse markdown_content) = true ->
  no_inline (md_parse markdown_content) = true ->
  markdown_to_docs_requests md_parse markdown_content start_index =
    Some (separator start_index) /\
  (start_index <= 1 ->
   markdown_to_docs_requests md_parse markdown_content start_index = Some []) /\
  (start_index > 1 ->
   markdown_to_docs_requests md_parse markdown_content start_index =
     Some [insertText start_index (LF ++ LF)]).
Proof.
  intros Hok Hn. rewrite (compile_no_inline _ _ _ Hok Hn).
  split; [reflexivity|]. unfold separator. split; intros H.
  - replace (start_index >? 1) with false; [reflexivity|].
    symmetry. rewrite Z.gtb_ltb. apply Z.ltb_ge. lia.
  - replace (start_index >? 1) with true; [reflexivity|].
    symmetry. apply Z.gtb_lt. lia.
Qed.

Lemma blocks_without_inline_are_dropped_witness :
  markdown_to_docs_requests (fun _ => fence_rule_tokens) "" 5 =
    Some (separator 5) /\
  (5 <= 1 ->
   markdown_to_docs_requests (fun _ => fence_rule_tokens) "" 5 = Some []) /\
  (5 > 1 ->
   markdown_to_docs_requests (fun _ => fence_rule_tokens) "" 5 =
     Some [insertText 5 (LF ++ LF)]).
Proof.
  apply (blocks_without_inline_are_dropped (fun _ => fence_rule_tokens) "" 5);
    reflexivity.
Defined.

(** X8. An inline token none of whose children acts (no children at all,
    or only empty text, inline code and the like) inserts its newline and
    nothing else: no paragraph style is recorded for it, even under an
    active heading or right after paragraph_open. *)
Theorem empty_inline_gets_newline_only
    (tokens : list Token) (i : nat) (token : Token) (st : State) :
  type token = "inline"%string ->
  filter acts (children_of token) = [] ->
  token_step tokens i token st =
  Some (mkState (requests st ++ [insertText (current_index st) LF])
          (formatting_requests st) (current_index st + 1)
          (current_heading_level st) false false).
Proof.
  intros Ht Hc. unfold token_step. rewrite Ht.
  cbn [String.eqb Ascii.eqb Bool.eqb]. unfold inline_step.
  rewrite run_children_loop, <- children_loop_acts, Hc.
  unfold inline_finish, reset_flags. cbn [children_loop fold_left current_index].
  replace (current_index st >? current_index st) with false; [reflexivity|].
  symmetry. rewrite Z.gtb_ltb. apply Z.ltb_irrefl.
Qed.

Lemma empty_inline_gets_newline_only_witness :
  token_step [heading_open "h2"; inline [text_tok ""]; heading_close "h2"] 1
    (inline [text_tok ""]) (mkState [] [] 1 (Some 2) true true) =
  Some (mkState
          (requests (mkState [] [] 1 (Some 2) true true) ++
             [insertText (current_index (mkState [] [] 1 (Some 2) true true)) LF])
          (formatting_requests (mkState [] [] 1 (Some 2) true true))
          (current_index (mkState [] [] 1 (Some 2) true true) + 1)
          (current_heading_level (mkState [] [] 1 (Some 2) true true))
          false false).
Proof.
  apply (empty_inline_gets_newline_only
           [heading_open "h2"; inline [text_tok ""]; heading_close "h2"] 1
           (inline [text_tok ""]) (mkState [] [] 1 (Some 2) true true));
    reflexivity.
Defined.

(** X9. The start offset is not validated. For any start offset of 1 or
    less, zero and negative values included, the compiler emits no separator
    and returns the batch of start offset 1 with every offset moved by
    start - 1; it raises for one such offset exactly when it raises for
    offset 1. *)
Theorem start_offset_below_one_shifts
    (md_parse : string -> list Token) (markdown_content : string)
    (start_index : Z) :
  start_index <= 1 ->
  markdown_to_docs_requests md_parse markdown_content start_index =
  option_map (map (shift_request (start_index - 1)))
             (markdown_to_docs_requests md_parse markdown_content 1).
Proof.
  intros Hle. unfold markdown_to_docs_requests.
  rewrite final_state_relocate.
  destruct (final_state (md_parse markdown_content) 1) as [st|]; [|reflexivity].
  simpl. rewrite batch_of_relocate. unfold separator, body_start.
  replace (start_index >? 1) with false; [reflexivity|].
  symmetry. rewrite Z.gtb_ltb. apply Z.ltb_ge. lia.
Qed.

Lemma start_offset_below_one_shifts_witness :
  markdown_to_docs_requests reference_parse title_markdown (-3) =
  option_map (map (shift_request (-3 - 1)))
             (markdown_to_docs_requests reference_parse title_markdown 1).
Proof. apply start_offset_below_one_shifts. lia. Defined.

(** ** The emphasis flags are booleans, not depths *)

Lemma child_step_keeps_bold child st :
  touches_bold child = false -> is_bold (child_step child st) = is_bold st.
Proof.
  unfold touches_bold, child_step. intros H.
  apply orb_false_iff in H. destruct H as [-> ->].
  repeat match goal with
         | |- context [if ?b then _ else _] => destruct b
         end; reflexivity.
Qed.

Lemma child_step_keeps_italic child st :
  touches_italic child = false -> is_italic (child_step child st) = is_italic st.
Proof.
  unfold touches_italic, child_step. intros H.
  apply orb_false_iff in H. destruct H as [-> ->].
  repeat match goal with
         | |- context [if ?b then _ else _] => destruct b
         end; reflexivity.
Qed.

Lemma children_loop_keeps_bold cs : forall st,
  forallb (fun c => negb (touches_bold c)) cs = true ->
  is_bold (children_loop cs st) = is_bold st.
Proof.
  induction cs as [|c cs IH]; intros st H; simpl in *; [reflexivity|].
  apply andb_prop in H. destruct H as [Hc Hcs]. apply negb_true_iff in Hc.
  rewrite (IH _ Hcs). now apply child_step_keeps_bold.
Qed.

Lemma children_loop_keeps_italic cs : forall st,
  forallb (fun c => negb (touches_italic c)) cs = true ->
  is_italic (children_loop cs st) = is_italic st.
Proof.
  induction cs as [|c cs IH]; intros st H; simpl in *; [reflexivity|].
  apply andb_prop in H. destruct H as [Hc Hcs]. apply negb_true_iff in Hc.
  rewrite (IH _ Hcs). now apply child_step_keeps_italic.
Qed.

(** X10. Emphasis nesting is not counted. After a strong_close the bold
    flag is off, and after an em_close the italic flag is off, whatever
    came before, and they stay off until the next opening marker of the
    same kind: inside nested emphasis of one kind, the text that follows the
    inner closing marker is no longer styled that way. *)
Theorem closing_marker_clears_flag
    (before after before' after' : list Token) (strong em : Token)
    (st st' : State) :
  type strong = "strong_close"%string ->
  forallb (fun c => negb (touches_bold c)) after = true ->
  type em = "em_close"%string ->
  forallb (fun c => negb (touches_italic c)) after' = true ->
  is_bold (children_loop (before ++ strong :: after) st) = false /\
  is_italic (children_loop (before' ++ em :: after') st') = false.
Proof.
  intros Hs Ha He Ha'. split; rewrite children_loop_app;
    cbn [children_loop fold_left].
  - fold (children_loop after (child_step strong (children_loop before st))).
    rewrite (children_loop_keeps_bold _ _ Ha).
    unfold child_step. now rewrite Hs.
  - fold (children_loop after' (child_step em (children_loop before' st'))).
    rewrite (children_loop_keeps_italic _ _ Ha').
    unfold child_step. now rewrite He.
Qed.

Lemma closing_marker_clears_flag_witness :
  is_bold (children_loop
             ([strong_open; text_tok "a "; strong_open; text_tok "b"]
              ++ strong_close :: [text_tok " c"])
             (mkState [] [] 1 None false false)) = false /\
  is_italic (children_loop
               ([em_open; em_open; text_tok "x"]
                ++ em_close :: [softbreak; text_tok "y"])
               (mkState [] [] 1 None false false)) = false.
Proof.
  apply (closing_marker_clears_flag
           [strong_open; text_tok "a "; strong_open; text_tok "b"]
           [text_tok " c"]
           [em_open; em_open; text_tok "x"] [softbreak; text_tok "y"]
           strong_close em_close); reflexivity.
Defined.

(** An illustration of X6: inline code, a link's markers and a hard break
    leave no trace in the batch; only the two text children are inserted. *)
Example mixed_paragraph_keeps_text_only :
  markdown_to_docs_requests (fun _ => mixed_tokens) "" 1 =
  Some [insertText 1 "see "; insertText 5 "here"; insertText 9 LF;
        updateParagraphStyle 1 9 (spaceBelow 10 "PT") "spaceBelow"].
Proof. reflexivity. Qed.

(** ** Template substitution *)

Lemma prefix_cons_inv a p c s :
  String.prefix (String a p) (String c s) = true -> a = c /\ String.prefix p s = true.
Proof. simpl. destruct (ascii_dec a c); [now split|discriminate]. Qed.

Lemma prefix_cons a p s :
  String.prefix p s = true -> String.prefix (String a p) (String a s) = true.
Proof. intros H. simpl. destruct (ascii_dec a a); [exact H|congruence]. Qed.

Lemma mem_char_head c s : mem_char c (String c s) = true.
Proof. simpl. now rewrite Ascii.eqb_refl. Qed.

(** What precedes a match in the output preceded it in the input. *)
Lemma prefix_replace_from old new0 new s : forall p,
  mem_char new0 p = false ->
  String.prefix p (replace_from old (String new0 new) 0 s) = true ->
  String.prefix p s = true.
Proof.
  induction s as [|c s IH]; intros p Hm H.
  - exact H.
  - destruct p as [|a p]; [reflexivity|].
    cbn [replace_from] in H.
    destruct (String.prefix old (String c s)).
    + cbn [append] in H. apply prefix_cons_inv in H. destruct H as [-> _].
      now rewrite mem_char_head in Hm.
    + apply prefix_cons_inv in H. destruct H as [-> H].
      apply prefix_cons. apply IH; [|exact H].
      simpl in Hm. apply orb_false_iff in Hm. now destruct Hm.
Qed.

Lemma occurs_after_new old0 old n : forall x,
  mem_char old0 n = false ->
  occurs (String old0 old) x = false ->
  occurs (String old0 old) (n ++ x) = false.
Proof.
  induction n as [|a n IH]; intros x Hm Hx; [exact Hx|].
  simpl in Hm. apply orb_false_iff in Hm. destruct Hm as [Ha Hn].
  cbn [append occurs]. rewrite (IH x Hn Hx), orb_false_r.
  simpl. destruct (ascii_dec old0 a) as [->|_]; [|reflexivity].
  now rewrite Ascii.eqb_refl in Ha.
Qed.

Lemma disjoint_chars_mem a b c :
  disjoint_chars a b = true -> mem_char c a = true -> mem_char c b = false.
Proof.
  induction a as [|d a IH]; simpl; [discriminate|].
  intros H Hc. apply andb_prop in H. destruct H as [Hd Ha].
  apply orb_prop in Hc. destruct Hc as [Hc|Hc].
  - apply Ascii.eqb_eq in Hc. subst. now apply negb_true_iff.
  - now apply IH.
Qed.

Lemma mem_char_sym_disjoint a b c :
  disjoint_chars a b = true -> mem_char c b = true -> mem_char c a = false.
Proof.
  intros H Hb. destruct (mem_char c a) eqn:Ha; [|reflexivity].
  rewrite (disjoint_chars_mem a b c H Ha) in Hb. discriminate.
Qed.

Lemma replace_from_no_occurrence old0 old new0 new s :
  disjoint_chars (String new0 new) (String old0 old) = true ->
  forall k,
    occurs (String old0 old)
      (replace_from (String old0 old) (String new0 new) k s) = false.
Proof.
  intros Hd. induction s as [|c s IH]; intros k.
  - reflexivity.
  - cbn [replace_from]. destruct k as [|k]; [|apply IH].
    destruct (String.prefix (String old0 old) (String c s)) eqn:Ep.
    + apply occurs_after_new; [|apply IH].
      apply (mem_char_sym_disjoint _ _ _ Hd). apply mem_char_head.
    + cbn [occurs]. rewrite IH, orb_false_r.
      destruct (String.prefix (String old0 old)
                  (String c (replace_from (String old0 old) (String new0 new) 0 s)))
        eqn:Eq; [|reflexivity].
      apply prefix_cons_inv in Eq. destruct Eq as [-> Eq].
      apply prefix_replace_from in Eq.
      * rewrite (prefix_cons c old s Eq) in Ep. discriminate.
      * destruct (mem_char new0 old) eqn:Em; [|reflexivity].
        assert (Hm : mem_char new0 (String c old) = true)
          by (simpl; now rewrite Em, orb_true_r).
        simpl in Hd. apply andb_prop in Hd. destruct Hd as [Hd _].
        apply negb_true_iff in Hd. simpl in Hd, Hm. congruence.
Qed.

Lemma replace_from_absent old new s :
  occurs old s = false -> replace_from old new 0 s = s.
Proof.
  induction s as [|c s IH]; intros H; [reflexivity|].
  cbn [occurs] in H. apply orb_false_iff in H. destruct H as [Hp Ho].
  cbn [replace_from]. rewrite Hp. now rewrite IH.
Qed.

Lemma section_numbers (i : Z) :
  2 <= i <= 15 ->
  exists d ds, str (i - 1) = String d ds /\
    disjoint_chars (String d ds) "<<section_number>>" = true.
Proof.
  intros H.
  assert (Hi : i = 2 \/ i = 3 \/ i = 4 \/ i = 5 \/ i = 6 \/ i = 7 \/ i = 8 \/
               i = 9 \/ i = 10 \/ i = 11 \/ i = 12 \/ i = 13 \/ i = 14 \/ i = 15)
    by lia.
  repeat (destruct Hi as [->|Hi]); try subst i;
    eexists; eexists; (split; [reflexivity|reflexivity]).
Qed.

(** X11. For every section of the loop (i from 2 to 15) the prompt sent to
    the model contains no <<section_number>> placeholder, whatever the
    template, the master extraction, the answers and the two common texts
    hold: it is substituted last, so occurrences brought in by the earlier
    substitutions (the common instructions use it) are replaced too. *)
Theorem section_prompt_has_no_section_placeholder
    (prompt master_extraction question_answers common_includes
     common_instructions : string) (i : Z) :
  2 <= i <= 15 ->
  occurs "<<section_number>>"
    (section_prompt prompt master_extraction question_answers common_includes
       common_instructions i) = false.
Proof.
  intros Hi. unfold section_prompt.
  destruct (section_numbers i Hi) as [d [ds [-> Hd]]].
  cbv zeta. set (p := replace "<<common_instructions>>" _ _).
  unfold replace. cbn [String.eqb].
  now apply replace_from_no_occurrence.
Qed.

Lemma section_prompt_has_no_section_placeholder_witness :
  occurs "<<section_number>>"
    (section_prompt "Section <<section_number>>: <<common_instructions>>"
       "m" "q" "inc" "Write section <<section_number>> only." 7) = false.
Proof. apply section_prompt_has_no_section_placeholder. lia. Defined.

(** X12. A template in which none of the five placeholders occurs is sent
    to the model unchanged. *)
Theorem section_prompt_without_placeholders
    (prompt master_extraction question_answers common_includes
     common_instructions : string) (i : Z) :
  occurs "<<master_extraction>>" prompt = false ->
  occurs "<<question_answers>>" prompt = false ->
  occurs "<<common_includes>>" prompt = false ->
  occurs "<<common_instructions>>" prompt = false ->
  occurs "<<section_number>>" prompt = false ->
  section_prompt prompt master_extraction question_answers common_includes
    common_instructions i = prompt.
Proof.
  intros H1 H2 H3 H4 H5. unfold section_prompt, replace. cbn [String.eqb].
  cbv zeta.
  rewrite (replace_from_absent _ _ _ H1), (replace_from_absent _ _ _ H2),
    (replace_from_absent _ _ _ H3), (replace_from_absent _ _ _ H4).
  apply replace_from_absent. exact H5.
Qed.

Lemma section_prompt_without_placeholders_witness :
  section_prompt "Describe the client." "m" "q" "inc" "ins" 2 =
  "Describe the client."%string.
Proof. apply section_prompt_without_placeholders; reflexivity. Defined.

(** ** Length checks *)

Lemma len_append a b : len (a ++ b)%string = len a + len b.
Proof.
  unfold len. induction a as [|c a IH]; simpl String.length; [reflexivity|].
  cbn [append String.length]. lia.
Qed.

Lemma section_profile_is_not_test t :
  (section_mirror_profile t =? "test")%string = false.
Proof.
  unfold section_mirror_profile.
  destruct t as [|a [|b [|c t]]]; try reflexivity.
  - cbn. destruct (Ascii.eqb a "t"); reflexivity.
  - cbn. destruct (Ascii.eqb a "t"); [|reflexivity].
    destruct (Ascii.eqb b "e"); reflexivity.
  - cbn. destruct (Ascii.eqb a "t"); [|reflexivity].
    destruct (Ascii.eqb b "e"); [|reflexivity].
    destruct (Ascii.eqb c "s"); [|reflexivity].
    destruct t as [|d t]; cbn; [reflexivity|].
    destruct (Ascii.eqb d "t"); [|reflexivity].
    destruct t; reflexivity.
Qed.

(** X13. A section is turned down as too short exactly when the model's
    text has fewer than 18 characters: the two newlines appended before the
    test count towards the 20. In src/main.py the comparison with the
    string test never matters, since the tested string ends in newlines. *)
Theorem section_too_short_below_18 (response_text : string) :
  main_section_too_short response_text = (len response_text <? 18) /\
  app_section_too_short response_text = (len response_text <? 18).
Proof.
  unfold main_section_too_short, app_section_too_short.
  rewrite section_profile_is_not_test. cbn [negb andb].
  unfold section_mirror_profile. rewrite len_append.
  change (len (LF ++ LF)%string) with 2.
  assert (E : (len response_text + 2 <? 20) = (len response_text <? 18)).
  { destruct (Z.ltb_spec (len response_text) 18);
      [apply Z.ltb_lt|apply Z.ltb_ge]; lia. }
  now rewrite E.
Qed.

(** ** Credentials *)

Lemma get_credentials_prints_only w c :
  In c (fst (get_credentials w)) -> exists line, c = printed line.
Proof.
  unfold get_credentials.
  destruct (st_secrets w) as [e|[info|]]; simpl;
    try destruct (from_service_account_info w info); simpl;
    destruct (credentials_json_exists w); simpl;
    try destruct (from_service_account_file w); simpl;
    intros H; repeat (destruct H as [H|H]); try contradiction; subst; eauto.
Qed.

(** X14. Without a credentials.json file, get_credentials either returns
    the credentials built from the Streamlit secret, or raises
    FileNotFoundError with the Credentials not found! help text: an error
    while reading or loading the secret is printed and never reaches the
    caller. *)
Theorem get_credentials_without_file (w : World) :
  credentials_json_exists w = false ->
  (exists info,
     st_secrets w = inr (Some info) /\
     get_credentials w = ([], inr (service_account_info info))) \/
  (snd (get_credentials w) = inl (FileNotFoundError credentials_help) /\
   forall line, In (printed line) (fst (get_credentials w)) ->
     exists e, line = ("Could not load from Streamlit secrets: "
                       ++ str_exn e)%string).
Proof.
  intros Hf. unfold get_credentials. rewrite Hf.
  destruct (st_secrets w) as [e|[info|]]; simpl.
  - right. split; [reflexivity|]. intros line [H|[]]. inversion H. eauto.
  - destruct (from_service_account_info w info) as [e|]; simpl.
    + right. split; [reflexivity|]. intros line [H|[]]. inversion H. eauto.
    + left. eauto.
  - right. split; [reflexivity|]. intros line [].
Qed.

Lemma get_credentials_without_file_witness :
  (exists info,
     st_secrets bare_world = inr (Some info) /\
     get_credentials bare_world = ([], inr (service_account_info info))) \/
  (snd (get_credentials bare_world) = inl (FileNotFoundError credentials_help) /\
   forall line, In (printed line) (fst (get_credentials bare_world)) ->
     exists e, line = ("Could not load from Streamlit secrets: "
                       ++ str_exn e)%string).
Proof. apply get_credentials_without_file. reflexivity. Defined.

(** X15. When get_credentials raises FileNotFoundError, create_google_doc
    answers success False with the exception's own text as message, while
    append_to_google_doc prefixes it with Error appending to document; in
    both cases nothing is sent to Drive or Docs. *)
Theorem missing_credentials_responses
    (w : World) (title content folder_id document_id m : string) :
  snd (get_credentials w) = inl (FileNotFoundError m) ->
  create_google_doc w title content folder_id =
    (fst (get_credentials w), failed m) /\
  append_to_google_doc w document_id content =
    (fst (get_credentials w),
     failed ("Error appending to document: " ++ m)).
Proof.
  unfold create_google_doc, append_to_google_doc.
  destruct (get_credentials w) as [t [e|creds]]; simpl; [|discriminate].
  intros H. inversion H; subst. now split.
Qed.

Lemma missing_credentials_responses_witness :
  create_google_doc bare_world "t" title_markdown default_folder_id =
    (fst (get_credentials bare_world), failed credentials_help) /\
  append_to_google_doc bare_world "doc-1" title_markdown =
    (fst (get_credentials bare_world),
     failed ("Error appending to document: " ++ credentials_help)).
Proof.
  apply (missing_credentials_responses bare_world "t" title_markdown
           default_folder_id "doc-1" credentials_help).
  reflexivity.
Defined.

(** ** What is sent to the Docs service *)


Ltac in_cases H :=
  repeat match type of H with
         | In _ (_ ++ _) => apply in_app_or in H; destruct H as [H|H]
         | In _ (_ :: _) => destruct H as [H|H]
         | In _ [] => contradiction
         | False => contradiction
         end.

Lemma not_printed w id rs :
  In (documents_batchUpdate id rs) (fst (get_credentials w)) -> False.
Proof.
  intros H. apply get_credentials_prints_only in H.
  destruct H as [line H]. discriminate.
Qed.



(** X17. append_to_google_doc never sends an empty batch update, and what
    it sends, to the document it was given, is the compiler's batch for the
    start offset endIndex - 1 of the last structural element of the
    document it has just read. *)
Theorem append_sends_the_compiled_batch
    (w : World) (document_id content : string)
    (id : option string) (rs : list request) :
  In (documents_batchUpdate id rs)
     (fst (append_to_google_doc w document_id content)) ->
  id = Some document_id /\ rs <> [] /\
  exists doc end_index,
    documents_get_execute w document_id = inr doc /\
    end_index_of doc = inr end_index /\
    markdown_to_docs_requests (md_parse w) content end_index = Some rs.
Proof.
  unfold append_to_google_doc, convert.
  destruct (get_credentials w) as [t [e|creds]] eqn:G; simpl.
  { intros H; exfalso; apply (not_printed w id rs); now rewrite G. }
  destruct (build w "docs" "v1" creds) as [e|]; simpl.
  { rewrite !app_nil_r. intros H; exfalso;
      apply (not_printed w id rs); now rewrite G. }
  assert (Hp : forall l, In (documents_batchUpdate id rs) (t ++ l) ->
                         In (documents_batchUpdate id rs) l).
  { intros l H. apply in_app_or in H. destruct H as [H|H]; [|exact H].
    exfalso. apply (not_printed w id rs). now rewrite G. }
  destruct (documents_get_execute w document_id) as [e|doc] eqn:Eg; simpl.
  { intros H; apply Hp in H; in_cases H; discriminate. }
  destruct (end_index_of doc) as [e|end_index] eqn:Ee; simpl.
  { intros H; apply Hp in H; in_cases H; discriminate. }
  destruct (markdown_to_docs_requests (md_parse w) content end_index)
    as [[|r requests]|] eqn:Em; simpl.
  - intros H; apply Hp in H; in_cases H; discriminate.
  - destruct (documents_batchUpdate_execute w (Some document_id) (r :: requests))
      as [e|]; simpl; intros H; apply Hp in H; in_cases H;
      try discriminate; inversion H; subst;
      (split; [reflexivity|]); (split; [discriminate|]);
      exists doc, end_index; repeat split; assumption.
  - intros H; apply Hp in H; in_cases H; discriminate.
Qed.

Lemma append_sends_the_compiled_batch_witness :
  Some "doc-1" = Some "doc-1" /\
  insertText 11 (LF ++ LF) :: map (shift_request 12) rs_of_title <> [] /\
  exists doc end_index,
    documents_get_execute quiet_world "doc-1" = inr doc /\
    end_index_of doc = inr end_index /\
    markdown_to_docs_requests (md_parse quiet_world) title_markdown end_index =
      Some (insertText 11 (LF ++ LF) :: map (shift_request 12) rs_of_title).
Proof.
  apply (append_sends_the_compiled_batch quiet_world "doc-1" title_markdown
           (Some "doc-1")
           (insertText 11 (LF ++ LF) :: map (shift_request 12) rs_of_title)).
  vm_compute. auto.
Defined.

(** X18. Given markdown without any inline token (the empty string, code
    fences only), and services that answer, create_google_doc creates the
    file and sends no batch update at all: the new document stays empty and
    the call still answers success with the document's URL. *)
Theorem create_without_inline_content
    (w : World) (title content folder_id : string)
    (creds : credentials) (id : option string) :
  heading_tags_ok (md_parse w content) = true ->
  no_inline (md_parse w content) = true ->
  snd (get_credentials w) = inr creds ->
  build w "drive" "v3" creds = None ->
  build w "docs" "v1" creds = None ->
  files_create_execute w title document_mime [folder_id] = inr id ->
  create_google_doc w title content folder_id =
    (fst (get_credentials w) ++ [files_create title document_mime [folder_id]],
     created id
       ("https://docs.google.com/document/d/" ++ format_id id ++ "/edit")
       "Document created successfully!").
Proof.
  intros Hok Hn Hc Hb1 Hb2 Hf. unfold create_google_doc, convert.
  destruct (get_credentials w) as [t [e|c]]; simpl in *; [discriminate|].
  inversion Hc; subst c. rewrite Hb1, Hb2. simpl. rewrite Hf. simpl.
  rewrite (compile_no_inline _ _ 1 Hok Hn). simpl.
  rewrite ?app_nil_r. reflexivity.
Qed.

Lemma create_without_inline_content_witness :
  create_google_doc quiet_world "Profile" "" default_folder_id =
    (fst (get_credentials quiet_world) ++
       [files_create "Profile" document_mime [default_folder_id]],
     created (Some "doc-1")
       ("https://docs.google.com/document/d/" ++ format_id (Some "doc-1")
        ++ "/edit")
       "Document created successfully!").
Proof.
  apply (create_without_inline_content quiet_world "Profile" ""
           default_folder_id (service_account_file "./credentials.json")
           (Some "doc-1")); reflexivity.
Defined.

Lemma compile_appending md_parse markdown_content start_index :
  heading_tags_ok (md_parse markdown_content) = true ->
  start_index > 1 ->
  exists rest,
    markdown_to_docs_requests md_parse markdown_content start_index =
      Some (insertText start_index (LF ++ LF) :: rest).
Proof.
  intros Hok Hgt. unfold markdown_to_docs_requests.
  rewrite final_state_relocate.
  destruct (final_state_defined _ 1 Hok) as [st ->]. simpl.
  rewrite batch_of_relocate. unfold separator.
  replace (start_index >? 1) with true by (symmetry; apply Z.gtb_lt; lia).
  simpl. eauto.
Qed.

(** X19. When the document read back ends beyond index 2, so that the start
    offset endIndex - 1 exceeds 1, and the services answer,
    append_to_google_doc always sends a batch update, and the batch begins
    with the insertion of two newlines at that offset: appending markdown
    without any content still adds the separator to the document. *)
Theorem append_always_sends_the_separator
    (w : World) (document_id content : string)
    (creds : credentials) (doc : document) (end_index : Z) :
  heading_tags_ok (md_parse w content) = true ->
  snd (get_credentials w) = inr creds ->
  build w "docs" "v1" creds = None ->
  documents_get_execute w document_id = inr doc ->
  end_index_of doc = inr end_index ->
  end_index > 1 ->
  exists rest,
    markdown_to_docs_requests (md_parse w) content end_index =
      Some (insertText end_index (LF ++ LF) :: rest) /\
    In (documents_batchUpdate (Some document_id)
          (insertText end_index (LF ++ LF) :: rest))
       (fst (append_to_google_doc w document_id content)).
Proof.
  intros Hok Hc Hb Hg He Hgt.
  destruct (compile_appending _ _ _ Hok Hgt) as [rest Hr].
  exists rest. split; [exact Hr|].
  unfold append_to_google_doc, convert.
  destruct (get_credentials w) as [t [e|c]]; simpl in *; [discriminate|].
  inversion Hc; subst c. rewrite Hb. simpl. rewrite Hg. simpl.
  rewrite He. simpl. rewrite Hr. simpl.
  match goal with
  | |- context [outcome ?o] => destruct o
  end; simpl; apply in_or_app; right; simpl; auto.
Qed.

Lemma append_always_sends_the_separator_witness :
  exists rest,
    markdown_to_docs_requests (md_parse quiet_world) "" 11 =
      Some (insertText 11 (LF ++ LF) :: rest) /\
    In (documents_batchUpdate (Some "doc-1")
          (insertText 11 (LF ++ LF) :: rest))
       (fst (append_to_google_doc quiet_world "doc-1" "")).
Proof.
  apply (append_always_sends_the_separator quiet_world "doc-1" ""
           (service_account_file "./credentials.json")
           (Some (Some [Some 1; Some 12])) 11); reflexivity.
Defined.

(** X20. When the batch update is refused after files().create has
    succeeded, create_google_doc answers success False without the id of
    the file it created, and sends nothing after the refused call: the new,
    empty document is left behind. The message is the exception's text,
    prefixed with Error creating document unless it is a
    FileNotFoundError. *)
Theorem refused_batch_leaves_the_file
    (w : World) (title content folder_id : string)
    (creds : credentials) (id : option string)
    (r : request) (rs : list request) (e : exn) :
  snd (get_credentials w) = inr creds ->
  build w "drive" "v3" creds = None ->
  build w "docs" "v1" creds = None ->
  files_create_execute w title document_mime [folder_id] = inr id ->
  markdown_to_docs_requests (md_parse w) content 1 = Some (r :: rs) ->
  documents_batchUpdate_execute w id (r :: rs) = Some e ->
  create_google_doc w title content folder_id =
    (fst (get_credentials w) ++
       [files_create title document_mime [folder_id];
        documents_batchUpdate id (r :: rs)],
     failed match e with
            | FileNotFoundError m => m
            | OtherException m => ("Error creating document: " ++ m)%string
            end).
Proof.
  intros Hc Hb1 Hb2 Hf Hm Hu. unfold create_google_doc, convert.
  destruct (get_credentials w) as [t [x|c]]; simpl in *; [discriminate|].
  inversion Hc; subst c. rewrite Hb1, Hb2. simpl. rewrite Hf. simpl.
  rewrite Hm. simpl. rewrite Hu. simpl.
  rewrite ?app_nil_r. now destruct e.
Qed.

Lemma refused_batch_leaves_the_file_witness :
  create_google_doc refusing_world "Profile" title_markdown default_folder_id =
    (fst (get_credentials refusing_world) ++
       [files_create "Profile" document_mime [default_folder_id];
        documents_batchUpdate (Some "doc-1")
          (insertText 1 "Title"
             :: [insertText 6 LF;
                 updateParagraphStyle 1 6 (namedStyleType "HEADING_1")
                   "namedStyleType"])],
     failed match OtherException "HttpError 400" with
            | FileNotFoundError m => m
            | OtherException m => ("Error creating document: " ++ m)%string
            end).
Proof.
  apply (refused_batch_leaves_the_file refusing_world "Profile" title_markdown
           default_folder_id (service_account_file "./credentials.json")
           (Some "doc-1")); reflexivity.
Defined.

(** ** Documents without headings and paragraphs, or without emphasis *)








Lemma child_step_unemphasized child st :
  opens_emphasis child = false ->
  is_bold st = false -> is_italic st = false ->
  is_bold (child_step child st) = false /\
  is_italic (child_step child st) = false /\
  formatting_requests (child_step child st) = formatting_requests st.
Proof.
  unfold opens_emphasis, child_step. intros H Hb Hi.
  apply orb_false_iff in H. destruct H as [-> ->].
  repeat match goal with
         | |- context [if (?a =? ?b)%string then _ else _] =>
             destruct (a =? b)%string
         | |- context [if (?a && ?b)%bool then _ else _] =>
             destruct (a && b)%bool
         end; simpl; rewrite ?Hb, ?Hi; simpl; repeat split; reflexivity.
Qed.

Lemma children_loop_unemphasized cs : forall st,
  forallb (fun c => negb (opens_emphasis c)) cs = true ->
  is_bold st = false -> is_italic st = false ->
  formatting_requests (children_loop cs st) = formatting_requests st.
Proof.
  induction cs as [|c cs IH]; intros st H Hb Hi; simpl in *; [reflexivity|].
  apply andb_prop in H. destruct H as [Hc Hcs]. apply negb_true_iff in Hc.
  destruct (child_step_unemphasized c st Hc Hb Hi) as [Hb' [Hi' Hf]].
  rewrite (IH _ Hcs Hb' Hi'). exact Hf.
Qed.

Lemma token_step_unemphasized tokens i token st st' :
  forallb (fun c => negb (opens_emphasis c)) (children_of token) = true ->
  Forall (fun r => is_text_style r = false) (formatting_requests st) ->
  token_step tokens i token st = Some st' ->
  Forall (fun r => is_text_style r = false) (formatting_requests st').
Proof.
  unfold token_step. intros Hc Hf E.
  destruct (type token =? "heading_open")%string.
  { destruct (heading_level (tag token)); inversion E; subst. exact Hf. }
  destruct (type token =? "heading_close")%string.
  { inversion E; subst. exact Hf. }
  destruct (type token =? "inline")%string; [|inversion E; subst; exact Hf].
  unfold inline_step, inline_finish in E.
  rewrite run_children_loop in E.
  set (st1 := children_loop (children_of token) (reset_flags st)) in *.
  assert (F1 : formatting_requests st1 = formatting_requests st).
  { unfold st1. now rewrite children_loop_unemphasized. }
  cbn [current_heading_level formatting_requests] in E. rewrite F1 in E.
  repeat match type of E with
         | context [if ?c then _ else _] => destruct c
         | context [match ?c with Some _ => _ | None => _ end] => destruct c
         end; inversion E; subst; simpl; try exact Hf;
    apply Forall_app; split; try exact Hf; now repeat constructor.
Qed.

Lemma token_loop_unemphasized tokens rest : forall i st st',
  unemphasized rest = true ->
  Forall (fun r => is_text_style r = false) (formatting_requests st) ->
  token_loop tokens i rest st = Some st' ->
  Forall (fun r => is_text_style r = false) (formatting_requests st').
Proof.
  induction rest as [|token rest IH]; intros i st st' Hr Hf E; simpl in *.
  - inversion E; subst. exact Hf.
  - apply andb_prop in Hr. destruct Hr as [Ht Hr].
    destruct (token_step tokens i token st) as [st1|] eqn:E1; [|discriminate].
    apply (IH (S i) st1 st' Hr); [|exact E].
    exact (token_step_unemphasized tokens i token st st1 Ht Hf E1).
Qed.

(** X22. A document none of whose inline children is a strong_open or an
    em_open gets no character style: the batch holds no updateTextStyle
    request, so closing markers on their own and text between them are
    never styled. *)
Theorem no_text_style_without_emphasis
    (md_parse : string -> list Token) (markdown_content : string)
    (start_index : Z) :
  heading_tags_ok (md_parse markdown_content) = true ->
  unemphasized (md_parse markdown_content) = true ->
  exists batch,
    markdown_to_docs_requests md_parse markdown_content start_index = Some batch /\
    forall s e ts f, ~ In (updateTextStyle s e ts f) batch.
Proof.
  intros Hok Hu. unfold markdown_to_docs_requests.
  destruct (final_state_defined _ start_index Hok) as [st E].
  rewrite E. exists (batch_of st). split; [reflexivity|].
  pose proof (ordered_inv_final _ _ _ E) as Ho.
  assert (Hf : Forall (fun r => is_text_style r = false)
                 (formatting_requests st)).
  { unfold final_state in E.
    eapply token_loop_unemphasized; [exact Hu| |exact E].
    unfold prelude. destruct (start_index >? 1); constructor. }
  intros s e ts f Hin.
  apply (formatting_member st _ Ho) in Hin; [|reflexivity].
  rewrite Forall_forall in Hf. apply Hf in Hin. discriminate.
Qed.

Lemma no_text_style_without_emphasis_witness :
  exists batch,
    markdown_to_docs_requests reference_parse a_b_markdown 6 = Some batch /\
    forall s e ts f, ~ In (updateTextStyle s e ts f) batch.
Proof. apply no_text_style_without_emphasis; reflexivity. Defined.

(** ** One stream after another *)

Lemma child_step_resume pr pf child st :
  child_step child (resume pr pf st) = resume pr pf (child_step child st).
Proof.
  unfold child_step, resume; simpl.
  repeat match goal with
         | |- context [if ?b then _ else _] => destruct b
         end; simpl; rewrite ?app_assoc; reflexivity.
Qed.

Lemma children_loop_resume pr pf cs : forall st,
  children_loop cs (resume pr pf st) = resume pr pf (children_loop cs st).
Proof.
  induction cs as [|c cs IH]; intros st; simpl; [reflexivity|].
  now rewrite child_step_resume, IH.
Qed.

Lemma inline_finish_resume pr pf tokens i ps st1 :
  inline_finish tokens i ps (resume pr pf st1) =
  option_map (resume pr pf) (inline_finish tokens i ps st1).
Proof.
  unfold inline_finish; simpl.
  destruct (current_index st1 >? ps);
    [destruct (current_heading_level st1);
       [|destruct (after_paragraph_open tokens i) as [[|]|]]|];
    simpl; try reflexivity; unfold resume; simpl; now rewrite ?app_assoc.
Qed.

Lemma token_step_resume pr pf tokens i token st :
  token_step tokens i token (resume pr pf st) =
  option_map (resume pr pf) (token_step tokens i token st).
Proof.
  unfold token_step.
  destruct (type token =? "heading_open")%string.
  { destruct (heading_level (tag token)); reflexivity. }
  destruct (type token =? "heading_close")%string; [reflexivity|].
  destruct (type token =? "inline")%string; [|reflexivity].
  unfold inline_step.
  rewrite !run_children_loop.
  change (reset_flags (resume pr pf st)) with (resume pr pf (reset_flags st)).
  rewrite children_loop_resume.
  change (current_index (resume pr pf st)) with (current_index st).
  apply inline_finish_resume.
Qed.

Lemma token_loop_resume pr pf tokens rest : forall i st,
  token_loop tokens i rest (resume pr pf st) =
  option_map (resume pr pf) (token_loop tokens i rest st).
Proof.
  induction rest as [|token rest IH]; intros i st; simpl; [reflexivity|].
  rewrite token_step_resume.
  destruct (token_step tokens i token st) as [st1|]; simpl; [apply IH|reflexivity].
Qed.

Lemma token_step_lookup tokens tokens' i i' token st :
  (type token =? "inline")%string = false \/
  after_paragraph_open tokens i = after_paragraph_open tokens' i' ->
  token_step tokens i token st = token_step tokens' i' token st.
Proof.
  unfold token_step, inline_step, inline_finish. intros [H|H].
  - now rewrite H.
  - now rewrite H.
Qed.

Lemma token_loop_first a b rest : forall i st,
  (i + List.length rest <= List.length a)%nat ->
  token_loop (a ++ b) i rest st = token_loop a i rest st.
Proof.
  induction rest as [|token rest IH]; intros i st H; simpl in *; [reflexivity|].
  rewrite (token_step_lookup (a ++ b) a i i).
  - destruct (token_step a i token st); [apply IH; lia|reflexivity].
  - right. unfold after_paragraph_open. destruct i as [|j]; [reflexivity|].
    now rewrite nth_error_app1 by lia.
Qed.

Lemma token_loop_second a b rest : forall i st,
  (1 <= i)%nat \/ starts_with_inline rest = false ->
  token_loop (a ++ b) (List.length a + i) rest st = token_loop b i rest st.
Proof.
  induction rest as [|token rest IH]; intros i st H; simpl in *; [reflexivity|].
  rewrite (token_step_lookup (a ++ b) b (List.length a + i) i).
  - destruct (token_step b i token st); [|reflexivity].
    rewrite <- Nat.add_succ_r. apply IH. left. lia.
  - destruct H as [H|H]; [right|now left].
    unfold after_paragraph_open. destruct i as [|j]; [lia|].
    rewrite Nat.add_succ_r. rewrite nth_error_app2 by lia.
    now replace (List.length a + j - List.length a)%nat with j by lia.
Qed.

Lemma same_output_reset st st' :
  same_output st st' -> reset_flags st = reset_flags st'.
Proof.
  unfold same_output, reset_flags. intros [-> [-> [-> ->]]]. reflexivity.
Qed.

Lemma token_step_same_output tokens i token st st' :
  same_output st st' ->
  same_outcome (token_step tokens i token st) (token_step tokens i token st').
Proof.
  intros H. pose proof H as [Hr [Hf [Hc Hh]]]. unfold token_step.
  destruct (type token =? "heading_open")%string.
  { destruct (heading_level (tag token)); simpl; [|exact I].
    unfold same_output; simpl. auto. }
  destruct (type token =? "heading_close")%string.
  { unfold same_outcome, same_output; simpl. auto. }
  destruct (type token =? "inline")%string; [|exact H].
  unfold inline_step. rewrite (same_output_reset _ _ H), Hc.
  destruct (inline_finish tokens i (current_index st')
              (run_children token (reset_flags st'))); simpl; [|exact I].
  unfold same_output. auto.
Qed.

Lemma token_loop_same_output tokens rest : forall i st st',
  same_output st st' ->
  same_outcome (token_loop tokens i rest st) (token_loop tokens i rest st').
Proof.
  induction rest as [|token rest IH]; intros i st st' H; simpl; [exact H|].
  pose proof (token_step_same_output tokens i token st st' H) as Hs.
  destruct (token_step tokens i token st) as [s1|],
           (token_step tokens i token st') as [s1'|]; simpl in Hs;
    try contradiction; [now apply IH|exact I].
Qed.

(** X23. Compiling two token streams in one call composes: when the first
    stream leaves no heading open and the second does not begin with an
    inline token, the walk over their concatenation emits the insertions of
    the first followed by those of the second, and the formatting requests
    of the first followed by those of the second, the second stream's
    offsets being those of its own compilation at offset 1 moved to where
    the first stream ended. No separator stands between the two. *)
Theorem walk_of_concatenation
    (a b : list Token) (start_index : Z) (sa sb : State) :
  final_state a start_index = Some sa ->
  current_heading_level sa = None ->
  starts_with_inline b = false ->
  final_state b 1 = Some sb ->
  exists sab,
    final_state (a ++ b) start_index = Some sab /\
    requests sab =
      requests sa ++ map (shift_request (current_index sa - 1)) (requests sb) /\
    formatting_requests sab =
      formatting_requests sa ++
      map (shift_request (current_index sa - 1)) (formatting_requests sb) /\
    current_index sab = current_index sb + (current_index sa - 1).
Proof.
  intros Ea Hh Hb Eb. unfold final_state in *.
  rewrite token_loop_app, token_loop_first by lia. rewrite Ea.
  assert (E2 : token_loop (a ++ b) (0 + List.length a) b sa =
               token_loop b 0 b sa).
  { rewrite <- (token_loop_second a b b 0 sa) by (now right).
    f_equal. lia. }
  rewrite E2.
  set (from := mkState [] [] (current_index sa) None (is_bold sa) (is_italic sa)).
  assert (Hsa : sa = resume (requests sa) (formatting_requests sa) from).
  { unfold resume, from; simpl. rewrite !app_nil_r, <- Hh. now destruct sa. }
  replace (token_loop b 0 b sa)
    with (token_loop b 0 b (resume (requests sa) (formatting_requests sa) from))
    by (now rewrite <- Hsa).
  rewrite token_loop_resume.
  assert (Hp : shift_state (current_index sa - 1) (prelude 1) =
               mkState [] [] (current_index sa) None false false).
  { unfold shift_state, prelude; cbn -[Z.add Z.sub]. f_equal. lia. }
  pose proof (token_loop_shift (current_index sa - 1) b b 0 (prelude 1)) as Hs.
  rewrite Eb, Hp in Hs. simpl in Hs.
  pose proof (token_loop_same_output b b 0 from
                (mkState [] [] (current_index sa) None false false)) as Ho.
  rewrite Hs in Ho.
  destruct (token_loop b 0 b from) as [x|]; simpl in Ho.
  - destruct Ho as [Hr [Hf [Hc _]]]; [unfold same_output, from; simpl; auto|].
    exists (resume (requests sa) (formatting_requests sa) x).
    split; [reflexivity|]. unfold resume; simpl.
    rewrite Hr, Hf, Hc. simpl. auto.
  - exfalso. apply Ho. unfold same_output, from; simpl. auto.
Qed.

Lemma walk_of_concatenation_witness :
  exists sab,
    final_state (title_tokens ++ a_b_tokens) 1 = Some sab /\
    requests sab =
      requests (mkState [insertText 1 "Title"; insertText 6 LF]
                  [updateParagraphStyle 1 6 (namedStyleType "HEADING_1")
                     "namedStyleType"] 7 None false false) ++
      map (shift_request
             (current_index
                (mkState [insertText 1 "Title"; insertText 6 LF]
                   [updateParagraphStyle 1 6 (namedStyleType "HEADING_1")
                      "namedStyleType"] 7 None false false) - 1))
          (requests
             (mkState
                [insertText 1 "A"; insertText 2 LF; insertText 3 "B";
                 insertText 4 LF]
                [updateParagraphStyle 1 2 (spaceBelow 10 "PT") "spaceBelow";
                 updateParagraphStyle 3 4 (spaceBelow 10 "PT") "spaceBelow"]
                5 None false false)) /\
    formatting_requests sab =
      formatting_requests
        (mkState [insertText 1 "Title"; insertText 6 LF]
           [updateParagraphStyle 1 6 (namedStyleType "HEADING_1")
              "namedStyleType"] 7 None false false) ++
      map (shift_request
             (current_index
                (mkState [insertText 1 "Title"; insertText 6 LF]
                   [updateParagraphStyle 1 6 (namedStyleType "HEADING_1")
                      "namedStyleType"] 7 None false false) - 1))
          (formatting_requests
             (mkState
                [insertText 1 "A"; insertText 2 LF; insertText 3 "B";
                 insertText 4 LF]
                [updateParagraphStyle 1 2 (spaceBelow 10 "PT") "spaceBelow";
                 updateParagraphStyle 3 4 (spaceBelow 10 "PT") "spaceBelow"]
                5 None false false)) /\
    current_index sab =
      current_index
        (mkState
           [insertText 1 "A"; insertText 2 LF; insertText 3 "B";
            insertText 4 LF]
           [updateParagraphStyle 1 2 (spaceBelow 10 "PT") "spaceBelow";
            updateParagraphStyle 3 4 (spaceBelow 10 "PT") "spaceBelow"]
           5 None false false) +
      (current_index
         (mkState [insertText 1 "Title"; insertText 6 LF]
            [updateParagraphStyle 1 6 (namedStyleType "HEADING_1")
               "namedStyleType"] 7 None false false) - 1).
Proof.
  apply (walk_of_concatenation title_tokens a_b_tokens 1); reflexivity.
Defined.
